(** * cbor2.stream: the scoped container-writer protocol

    A shallow embedding of [cbor2/stream.py]: the three writer classes
    ([CBORWriter], [CBORArrayWriter], [CBORMapWriter]) and the context
    manager that pairs a container header with its terminator.

    Python objects live in a store ([heap]) because the context manager and
    the caller share one writer object: [__exit__] reads the very
    [capacity] slot the caller's [write] calls have been decrementing.
    The encoder is an external collaborator; the sink is modelled as the
    sequence of calls made on it, in order. The bytes of the stream are
    the concatenation of what these calls write, so a call sequence that
    has not grown is a byte stream that has not grown. Exceptions do not
    roll the store or the sink back, so every computation returns its
    final state next to its outcome. *)

From Stdlib Require Import ZArith QArith OrderedTypeEx.
From stdpp Require Import gmap list strings sorting.

Local Close Scope Q_scope.
Local Open Scope Z_scope.

(** ** Python values *)

(** The values that reach this module: the [length] argument, the keys and
    the values handed to the encoder. A float is kept as the rational it
    denotes. *)
Inductive pyval :=
| PyNone
| PyBool (b : bool)
| PyInt (z : Z)
| PyFloat (q : Q)
| PyStr (s : string).

Inductive exn :=
| ValueError (msg : string)
| CBORWriterError (msg : string)
| TypeError
| AttributeError.

(** [isinstance(v, numbers.Integral)]: [int] and its subclass [bool]. *)
Definition isinstance_Integral (v : pyval) : bool :=
  match v with
  | PyBool _ | PyInt _ => true
  | _ => false
  end.

Definition is_None (v : pyval) : bool :=
  match v with PyNone => true | _ => false end.

(** Three-way comparison of a number with the literal [0]; [None] for the
    operands on which Python raises [TypeError]. *)
Definition py_cmp0 (v : pyval) : option comparison :=
  match v with
  | PyBool b => Some (Z.b2z b ?= 0)
  | PyInt z => Some (z ?= 0)
  | PyFloat q => Some (q ?= 0)%Q
  | PyNone | PyStr _ => None
  end.

(** [v < 0], [v <= 0], [v > 0] *)
Definition py_lt0 (v : pyval) : option bool :=
  c ← py_cmp0 v; Some (match c with Lt => true | _ => false end).
Definition py_le0 (v : pyval) : option bool :=
  c ← py_cmp0 v; Some (match c with Gt => false | _ => true end).
Definition py_gt0 (v : pyval) : option bool :=
  c ← py_cmp0 v; Some (match c with Gt => true | _ => false end).

(** [not v]: Python truthiness, negated. *)
Definition py_not (v : pyval) : bool :=
  match v with
  | PyNone => true
  | PyBool b => negb b
  | PyInt z => z =? 0
  | PyFloat q => Qeq_bool q 0
  | PyStr s => match s with EmptyString => true | _ => false end
  end.

(** [v - 1] *)
Definition py_sub1 (v : pyval) : option pyval :=
  match v with
  | PyBool b => Some (PyInt (Z.b2z b - 1))
  | PyInt z => Some (PyInt (z - 1))
  | PyFloat q => Some (PyFloat (q - 1)%Q)
  | PyNone | PyStr _ => None
  end.

(** ** The sink and the object store *)

(** One entry per call made on the encoder. [write_encode_length t n] is
    [encoder.write(encode_length(t, n))]. *)
Inductive call :=
| encode (value : pyval)
| encode_indefinite (major_tag : Z)
| write_encode_length (major_tag : Z) (length : pyval)
| encode_break.

Definition loc := nat.

(** Instances of [CBORWriter], [CBORArrayWriter] and [CBORMapWriter] with
    their slots; [CBORWriter] has [__slots__ = ()]. The [encoder] slot is
    the same encoder everywhere in one writer tree: it is the [sink]. *)
Inductive object :=
| WriterObj
| ArrayWriterObj (capacity : pyval)
| MapWriterObj (capacity : pyval).

(** [_CBORContainerWriterContextManager]: its slots are assigned once, in
    [__init__], so an instance is a value; [cm_writer] is a reference. *)
Record ContextManager := {
  cm_major_tag : Z;
  cm_length : pyval;
  cm_writer : loc
}.

Record state := {
  sink : list call;
  heap : gmap loc object
}.

Definition capacity_of (o : object) : option pyval :=
  match o with
  | WriterObj => None
  | ArrayWriterObj c | MapWriterObj c => Some c
  end.

(** The [capacity] slot of the object at [w], if there is one. *)
Definition capacity_at (s : state) (w : loc) : option pyval :=
  o ← heap s !! w; capacity_of o.

(** ** Computations: state that survives a raised exception *)

Inductive result (A : Type) :=
| Ok (a : A)
| Raise (e : exn).
Arguments Ok {A} a.
Arguments Raise {A} e.

Definition M (A : Type) : Type := state → result A * state.

Definition ret {A} (a : A) : M A := λ s, (Ok a, s).

Definition raise {A} (e : exn) : M A := λ s, (Raise e, s).

Definition bind {A B} (c : M A) (k : A → M B) : M B :=
  λ s, match c s with
       | (Ok a, s') => k a s'
       | (Raise e, s') => (Raise e, s')
       end.

Notation "x <- c ;; k" := (bind c (λ x, k))
  (at level 100, c at next level, right associativity).
Notation "c ;;; k" := (bind c (λ _, k))
  (at level 100, right associativity).

(** A primitive that raises [TypeError] where Python does. *)
Definition lift_op {A} (o : option A) : M A :=
  match o with
  | Some a => ret a
  | None => raise TypeError
  end.

(** One call on the encoder. *)
Definition emit (c : call) : M unit :=
  λ s, (Ok tt, {| sink := sink s ++ [c]; heap := heap s |}).

(** Object creation: a fresh location. *)
Definition alloc (o : object) : M loc :=
  λ s, let l := fresh (dom (heap s)) in
       (Ok l, {| sink := sink s; heap := <[l := o]> (heap s) |}).

Definition final {A} (r : result A * state) : state := snd r.
Definition outcome {A} (r : result A * state) : result A := fst r.

(** ** _CBORContainerWriterContextManager *)

Module _CBORContainerWriterContextManager.

Definition length_message : string :=
  "Length can be either a positive integral value or None".

Definition __init__ (major_tag : Z) (length : pyval) (writer : loc)
  : M ContextManager :=
  if negb (is_None length || isinstance_Integral length)
  then raise (ValueError length_message)
  else
    negative <- (if negb (is_None length) then lift_op (py_lt0 length)
                 else ret false) ;;
    if negative then raise (ValueError length_message)
    else ret {| cm_major_tag := major_tag;
                cm_length := length;
                cm_writer := writer |}.

Definition __enter__ (self : ContextManager) : M loc :=
  (if is_None (cm_length self)
   then emit (encode_indefinite (cm_major_tag self))
   else emit (write_encode_length (cm_major_tag self) (cm_length self))) ;;;
  ret (cm_writer self).

(** [self.writer.capacity] *)
Definition writer_capacity (self : ContextManager) : M pyval :=
  λ s, match capacity_at s (cm_writer self) with
       | Some c => (Ok c, s)
       | None => (Raise AttributeError, s)
       end.

Definition insufficient_message : string :=
  "Insufficient number of values written out".

Definition __exit__ (self : ContextManager) : M unit :=
  if is_None (cm_length self)
  then emit encode_break
  else
    c <- writer_capacity self ;;
    positive <- lift_op (py_gt0 c) ;;
    if positive then raise (CBORWriterError insufficient_message)
    else ret tt.

End _CBORContainerWriterContextManager.

(** ** _CBORWriterBase *)

Module _CBORWriterBase.

(** The writer is constructed first (it is an argument of the context
    manager's constructor), with [capacity = length] whatever [length]
    is; the check of [length] comes after. *)
Definition _array_context_mgr (length : pyval) : M ContextManager :=
  w <- alloc (ArrayWriterObj length) ;;
  _CBORContainerWriterContextManager.__init__ 0x80 length w.

Definition _map_context_mgr (length : pyval) : M ContextManager :=
  w <- alloc (MapWriterObj length) ;;
  _CBORContainerWriterContextManager.__init__ 0xA0 length w.

End _CBORWriterBase.

(** ** CBORArrayWriter *)

Module CBORArrayWriter.

(** [self.capacity], for [self] an array writer. A [self] that is no
    live [CBORArrayWriter] is a [TypeError] of the model. *)
Definition capacity (self : loc) : M pyval :=
  λ s, match heap s !! self with
       | Some (ArrayWriterObj c) => (Ok c, s)
       | _ => (Raise TypeError, s)
       end.

Definition set_capacity (self : loc) (c : pyval) : M unit :=
  λ s, (Ok tt, {| sink := sink s;
                  heap := <[self := ArrayWriterObj c]> (heap s) |}).

Definition exceeded_message : string :=
  "Exceeded the requested array element count".

Definition _commit_element (self : loc) : M unit :=
  c <- capacity self ;;
  if negb (is_None c) then
    full <- lift_op (py_le0 c) ;;
    if full then raise (CBORWriterError exceeded_message)
    else (c' <- lift_op (py_sub1 c) ;; set_capacity self c')
  else ret tt.

Definition array (self : loc) (length : pyval) : M ContextManager :=
  _commit_element self ;;;
  _CBORWriterBase._array_context_mgr length.

Definition map (self : loc) (length : pyval) : M ContextManager :=
  _commit_element self ;;;
  _CBORWriterBase._map_context_mgr length.

Definition write (self : loc) (value : pyval) : M unit :=
  _commit_element self ;;;
  emit (encode value).

End CBORArrayWriter.

(** ** CBORMapWriter *)

Module CBORMapWriter.

Definition capacity (self : loc) : M pyval :=
  λ s, match heap s !! self with
       | Some (MapWriterObj c) => (Ok c, s)
       | _ => (Raise TypeError, s)
       end.

Definition set_capacity (self : loc) (c : pyval) : M unit :=
  λ s, (Ok tt, {| sink := sink s;
                  heap := <[self := MapWriterObj c]> (heap s) |}).

Definition exceeded_message : string :=
  "Exceeded the requested map element count".

Definition _commit_element (self : loc) : M unit :=
  c <- capacity self ;;
  if negb (is_None c) then
    if py_not c then raise (CBORWriterError exceeded_message)
    else (c' <- lift_op (py_sub1 c) ;; set_capacity self c')
  else ret tt.

Definition array (self : loc) (key : pyval) (length : pyval)
  : M ContextManager :=
  _commit_element self ;;;
  emit (encode key) ;;;
  _CBORWriterBase._array_context_mgr length.

Definition map (self : loc) (key : pyval) (length : pyval)
  : M ContextManager :=
  _commit_element self ;;;
  emit (encode key) ;;;
  _CBORWriterBase._map_context_mgr length.

Definition write (self : loc) (key value : pyval) : M unit :=
  _commit_element self ;;;
  emit (encode key) ;;;
  emit (encode value).

End CBORMapWriter.

(** ** CBORWriter *)

Module CBORWriter.

Definition array (length : pyval) : M ContextManager :=
  _CBORWriterBase._array_context_mgr length.

Definition map (length : pyval) : M ContextManager :=
  _CBORWriterBase._map_context_mgr length.

Definition write (value : pyval) : M unit :=
  emit (encode value).

End CBORWriter.

(** ** The [with] statement *)

(** [with cm as w: body w]. [__exit__] runs whether or not the body raised;
    it returns [None], so an exception of the body propagates unless
    [__exit__] raises one of its own, which then takes its place. *)
Definition with_ {A} (cm : ContextManager) (body : loc → M A) : M A :=
  λ s, match _CBORContainerWriterContextManager.__enter__ cm s with
       | (Raise e, s1) => (Raise e, s1)
       | (Ok w, s1) =>
           let '(r, s2) := body w s1 in
           match _CBORContainerWriterContextManager.__exit__ cm s2 with
           | (Ok _, s3) => (r, s3)
           | (Raise e, s3) => (Raise e, s3)
           end
       end.

(** [with open_ as w: body w], where [open_] is the call that creates the
    context manager ([wr.array(...)], [wr.map(...)]). *)
Definition with_call {A} (open_ : M ContextManager) (body : loc → M A) : M A :=
  cm <- open_ ;; with_ cm body.

(** A new encoder and no writer object yet. *)
Definition empty_state : state := {| sink := []; heap := ∅ |}.

(** ** Calls as data *)

(** Every call of the public interface, so that arbitrary call sequences
    can be quantified over. *)
Inductive op :=
| Writer_write (value : pyval)
| Writer_array (length : pyval)
| Writer_map (length : pyval)
| Array_write (self : loc) (value : pyval)
| Array_array (self : loc) (length : pyval)
| Array_map (self : loc) (length : pyval)
| Map_write (self : loc) (key value : pyval)
| Map_array (self : loc) (key length : pyval)
| Map_map (self : loc) (key length : pyval)
| Enter (cm : ContextManager)
| Exit (cm : ContextManager).

Definition ignore {A} (c : M A) : M unit := _ <- c ;; ret tt.

Definition run_op (o : op) : M unit :=
  match o with
  | Writer_write v => CBORWriter.write v
  | Writer_array n => ignore (CBORWriter.array n)
  | Writer_map n => ignore (CBORWriter.map n)
  | Array_write w v => CBORArrayWriter.write w v
  | Array_array w n => ignore (CBORArrayWriter.array w n)
  | Array_map w n => ignore (CBORArrayWriter.map w n)
  | Map_write w k v => CBORMapWriter.write w k v
  | Map_array w k n => ignore (CBORMapWriter.array w k n)
  | Map_map w k n => ignore (CBORMapWriter.map w k n)
  | Enter cm => ignore (_CBORContainerWriterContextManager.__enter__ cm)
  | Exit cm => _CBORContainerWriterContextManager.__exit__ cm
  end.

(** A caller that goes on after an exception: the calls one after the
    other, each from the state the previous one left. *)
Fixpoint run_ops (ops : list op) (s : state) : state :=
  match ops with
  | [] => s
  | o :: ops' => run_ops ops' (final (run_op o s))
  end.

(** The calls of [ops] that commit on the writer [w], itself the object
    [o]: the methods of [o]'s class invoked on [w]. *)
Definition commits_on (o : object) (w : loc) (c : op) : bool :=
  match o, c with
  | ArrayWriterObj _, (Array_write w' _ | Array_array w' _ | Array_map w' _)
  | MapWriterObj _, (Map_write w' _ _ | Map_array w' _ _ | Map_map w' _ _) =>
      bool_decide (w' = w)
  | _, _ => false
  end.

(** [for (k, v) in pairs: m.write(k, v)] *)
Fixpoint write_pairs (m : loc) (pairs : list (pyval * pyval)) : M unit :=
  match pairs with
  | [] => ret tt
  | (k, v) :: rest => CBORMapWriter.write m k v ;;; write_pairs m rest
  end.

(** What the encoder is asked for a list of pairs written in order. *)
Definition flat_pairs (pairs : list (pyval * pyval)) : list call :=
  flat_map (λ kv, [encode kv.1; encode kv.2]) pairs.

(** A [length] that [__init__] rejects: not [None], and not integral or
    below zero. *)
Definition invalid_length (length : pyval) : Prop :=
  match length with
  | PyNone => False
  | PyBool _ => False
  | PyInt z => z < 0
  | PyFloat _ | PyStr _ => True
  end.

(** [keeps w o c]: when [w] holds the object [o], it still does after [c],
    however [c] ends. *)
Definition keeps {A} (w : loc) (o : object) (c : M A) : Prop :=
  ∀ s, heap s !! w = Some o → heap (final (c s)) !! w = Some o.

(** The object [o] with its [capacity] slot set to [c]. *)
Definition with_capacity (o : object) (c : pyval) : object :=
  match o with
  | WriterObj => WriterObj
  | ArrayWriterObj _ => ArrayWriterObj c
  | MapWriterObj _ => MapWriterObj c
  end.

(** The message of the [CBORWriterError] that [o]'s class raises on a
    commit beyond the declared size. *)
Definition exceeded_message (o : object) : string :=
  match o with
  | MapWriterObj _ => CBORMapWriter.exceeded_message
  | _ => CBORArrayWriter.exceeded_message
  end.

Import _CBORContainerWriterContextManager.

(** How many calls of [ops] commit on [w]. *)
Fixpoint count_commits (o : object) (w : loc) (ops : list op) : Z :=
  match ops with
  | [] => 0
  | c :: ops' =>
      (if commits_on o w c then 1 else 0) + count_commits o w ops'
  end.

(** A [capacity] on which a commit goes through: unbounded, or a counter
    above zero. *)
Definition has_room (capacity : pyval) : Prop :=
  match capacity with
  | PyNone => True
  | PyInt c => 0 < c
  | _ => False
  end.

(** The counter after one commit that went through. *)
Definition committed (capacity : pyval) : pyval :=
  match capacity with
  | PyInt c => PyInt (c - 1)
  | other => other
  end.

(** The call [__enter__] makes on the encoder. *)
Definition header (major_tag : Z) (length : pyval) : call :=
  if is_None length then encode_indefinite major_tag
  else write_encode_length major_tag length.

(** The outcome [r] of a nested [array]/[map] call made in state [s] on
    the writer [parent]: the call returned a context manager; by then the
    parent holds [parent_after] and the encoder has been asked for [pre]
    and nothing else; the nested writer is a new object [nested];
    [__enter__] then writes the header [hd] without touching the store;
    and from there on no sequence of calls changes the parent unless it
    contains a call made on the parent itself. *)
Definition nested_opened (parent : loc) (parent_after : object)
    (pre : list call) (hd : call) (nested : object)
    (s : state) (r : result ContextManager * state) : Prop :=
  ∃ cm s1,
    r = (Ok cm, s1) ∧
    sink s1 = sink s ++ pre ∧
    heap s1 !! parent = Some parent_after ∧
    cm_writer cm ≠ parent ∧
    heap s1 !! cm_writer cm = Some nested ∧
    __enter__ cm s1 =
      (Ok (cm_writer cm), {| sink := sink s1 ++ [hd]; heap := heap s1 |}) ∧
    ∀ ops, count_commits parent_after parent ops = 0 →
           heap (run_ops ops (final (__enter__ cm s1))) !! parent =
           Some parent_after.

(** A call that ended in the [ValueError] of [__init__], having asked the
    encoder for [pre] and nothing else. *)
Definition rejected_after {A} (pre : list call) (s : state)
    (r : result A * state) : Prop :=
  outcome r = Raise (ValueError length_message) ∧
  sink (final r) = sink s ++ pre.

(** The pairs a map writer with the given [capacity] takes from [pairs]
    before it raises. *)
Definition accepted (capacity : pyval) (pairs : list (pyval * pyval))
  : list (pyval * pyval) :=
  match capacity with
  | PyInt c => take (Z.to_nat c) pairs
  | _ => pairs
  end.

(** A call that ended in the [ValueError] of [__init__], with the writer
    [w] holding [o] by then. *)
Definition rejected_with {A} (w : loc) (o : object) (r : result A * state)
  : Prop :=
  outcome r = Raise (ValueError length_message) ∧ heap (final r) !! w = Some o.

(** The capacities a writer created through [array]/[map] can hold:
    [None], or a counter that is not negative. *)
Definition scope_capacity (capacity : pyval) : Prop :=
  match capacity with
  | PyNone => True
  | PyInt c => 0 ≤ c
  | _ => False
  end.

(** ** Loops over a scope *)

(** [for v in values: a.write(v)] *)
Fixpoint write_values (a : loc) (values : list pyval) : M unit :=
  match values with
  | [] => ret tt
  | v :: rest => CBORArrayWriter.write a v ;;; write_values a rest
  end.

(** How a block that makes [made] commits on a scope declared for [n]
    ends: normally when the two agree, with [short] when commits are
    missing, with [over] when there is one too many. *)
Definition block_outcome (made n : Z) (short over : string) : result unit :=
  match made ?= n with
  | Eq => Ok tt
  | Lt => Raise (CBORWriterError short)
  | Gt => Raise (CBORWriterError over)
  end.


(** Two objects of one class, both bounded or both unbounded. *)
Definition same_mode (o o' : object) : Prop :=
  match o, o' with
  | WriterObj, WriterObj => True
  | ArrayWriterObj c, ArrayWriterObj c'
  | MapWriterObj c, MapWriterObj c' => is_None c = is_None c'
  | _, _ => False
  end.

(** What a call [r] that may create a scope of tag [t] over a new writer
    [mk length] did in state [s]: it made no call on the encoder and
    changed no object; it either raised [ValueError], when [length] is one
    [__init__] rejects, or returned a context manager for [t] and
    [length] whose writer sits at a location that held nothing before. *)
Definition opened_or_rejected (t : Z) (length : pyval) (nested : object)
    (s : state) (r : result ContextManager * state) : Prop :=
  sink (final r) = sink s ∧
  (∀ w o, heap s !! w = Some o → heap (final r) !! w = Some o) ∧
  ((invalid_length length ∧ outcome r = Raise (ValueError length_message)) ∨
   (¬ invalid_length length ∧
    ∃ cm, outcome r = Ok cm ∧
          cm_major_tag cm = t ∧ cm_length cm = length ∧
          heap s !! cm_writer cm = None ∧
          heap (final r) !! cm_writer cm = Some nested)).

(** ** tests/test_stream.py: [_encode_value] *)

(** The values the helper tells apart: a [tuple], a [list], a
    [FrozenDict], a [dict], and anything else. A mapping is given by its
    items, the keys (strings, as in the tests) pairwise distinct. *)
#[local] Unset Elimination Schemes.
Inductive value :=
| Scalar (v : pyval)
| Tuple (items : list value)
| List_ (items : list value)
| FrozenDict (items : list (string * value))
| Dict (items : list (string * value)).
#[local] Set Elimination Schemes.

(** The first two arguments the helper is called with: the [CBORWriter]
    itself, an array writer, or a map writer together with the keyword
    argument [key=k]. *)
Inductive handle :=
| OnWriter
| OnArray (a : loc)
| OnMap (m : loc) (key : pyval).

(** [wr.array(length=length, **kwargs)] *)
Definition handle_array (wr : handle) (length : pyval) : M ContextManager :=
  match wr with
  | OnWriter => CBORWriter.array length
  | OnArray a => CBORArrayWriter.array a length
  | OnMap m key => CBORMapWriter.array m key length
  end.

(** [wr.map(length=length, **kwargs)] *)
Definition handle_map (wr : handle) (length : pyval) : M ContextManager :=
  match wr with
  | OnWriter => CBORWriter.map length
  | OnArray a => CBORArrayWriter.map a length
  | OnMap m key => CBORMapWriter.map m key length
  end.

(** [wr.write(value=v, **kwargs)] *)
Definition handle_write (wr : handle) (v : pyval) : M unit :=
  match wr with
  | OnWriter => CBORWriter.write v
  | OnArray a => CBORArrayWriter.write a v
  | OnMap m key => CBORMapWriter.write m key v
  end.

(** Items in the order of [sorted(v.keys())]: ascending keys, strings
    compared as Python compares them. *)
Fixpoint insert_item {A} (k : string) (x : A) (l : list (string * A))
  : list (string * A) :=
  match l with
  | [] => [(k, x)]
  | (k', x') :: rest =>
      if String.leb k k' then (k, x) :: l
      else (k', x') :: insert_item k x rest
  end.

Fixpoint sorted_items {A} (l : list (string * A)) : list (string * A) :=
  match l with
  | [] => []
  | (k, x) :: rest => insert_item k x (sorted_items rest)
  end.

(** Entries compared by their keys. *)
Definition key_le {A} (x y : string * A) : Prop := String.leb x.1 y.1 = true.

(** [for (k, x) in items: body(k, x)] *)
Definition for_items {A} (items : list (string * A))
    (body : string → A → M unit) : M unit :=
  (fix loop (l : list (string * A)) : M unit :=
     match l with
     | [] => ret tt
     | (k, x) :: rest => body k x ;;; loop rest
     end) items.

(** [for x in items: body(x)] *)
Definition for_each {A} (items : list A) (body : A → M unit) : M unit :=
  (fix loop (l : list A) : M unit :=
     match l with
     | [] => ret tt
     | x :: rest => body x ;;; loop rest
     end) items.

(** [_encode_value(wr, v, **kwargs)]. For a mapping the source runs
    [for k in sorted(v.keys())] and recurses on [v[k]]; here the
    recursive call on each entry is taken first, as a computation still
    waiting for its writer, and the entries are then run in ascending key
    order. *)
Fixpoint _encode_value (wr : handle) (v : value) {struct v} : M unit :=
  match v with
  | Tuple items =>
      with_call (handle_array wr (PyInt (Z.of_nat (length items)))) (λ a,
        for_each items (λ i, _encode_value (OnArray a) i))
  | List_ items =>
      with_call (handle_array wr PyNone) (λ a,
        for_each items (λ i, _encode_value (OnArray a) i))
  | FrozenDict items =>
      with_call (handle_map wr (PyInt (Z.of_nat (length items)))) (λ m,
        for_items
          (sorted_items
             ((λ kx, (kx.1, λ wr', _encode_value wr' kx.2)) <$> items))
          (λ k enc, enc (OnMap m (PyStr k))))
  | Dict items =>
      with_call (handle_map wr PyNone) (λ m,
        for_items
          (sorted_items
             ((λ kx, (kx.1, λ wr', _encode_value wr' kx.2)) <$> items))
          (λ k enc, enc (OnMap m (PyStr k))))
  | Scalar x => handle_write wr x
  end.

(** An entry of a mapping on the wire: the key, then the value. *)
Definition entry_calls (kc : string * list call) : list call :=
  encode (PyStr kc.1) :: kc.2.

(** The calls a value stands for, read off its structure alone: a header
    with the count (tuple, frozen mapping) or a start and a break (list,
    mapping) around the members, each entry of a mapping as its key
    followed by its value, entries in ascending key order. *)
Fixpoint serialize (v : value) : list call :=
  match v with
  | Scalar x => [encode x]
  | Tuple items =>
      write_encode_length 0x80 (PyInt (Z.of_nat (length items)))
      :: flat_map serialize items
  | List_ items =>
      encode_indefinite 0x80 :: flat_map serialize items ++ [encode_break]
  | FrozenDict items =>
      write_encode_length 0xA0 (PyInt (Z.of_nat (length items)))
      :: flat_map entry_calls
           (sorted_items ((λ kx, (kx.1, serialize kx.2)) <$> items))
  | Dict items =>
      encode_indefinite 0xA0
      :: flat_map entry_calls
           (sorted_items ((λ kx, (kx.1, serialize kx.2)) <$> items))
      ++ [encode_break]
  end.

(** What the call itself puts in front of the value: the key, on a map. *)
Definition key_calls (wr : handle) : list call :=
  match wr with
  | OnMap _ key => [encode key]
  | _ => []
  end.

(** The store once the writer of [wr], holding [cap], has committed. *)
Definition committed_heap (wr : handle) (cap : pyval)
    (h : gmap loc object) : gmap loc object :=
  match wr with
  | OnWriter => h
  | OnArray a => <[a := ArrayWriterObj (committed cap)]> h
  | OnMap m _ => <[m := MapWriterObj (committed cap)]> h
  end.

(** A capacity that allows [k] more commits, and what is left of it once
    they are made. *)
Definition fits (cap : pyval) (k : nat) : Prop :=
  match cap with
  | PyNone => True
  | PyInt c => Z.of_nat k ≤ c
  | _ => False
  end.

Definition spend (cap : pyval) (k : nat) : pyval :=
  match cap with
  | PyInt c => PyInt (c - Z.of_nat k)
  | other => other
  end.

(** What [__exit__] writes for a scope of the given length. *)
Definition closing (length : pyval) : list call :=
  if is_None length then [encode_break] else [].

(** The writer of [wr] is there, holds [cap], and can take a commit. *)
Definition ready (wr : handle) (cap : pyval) (s : state) : Prop :=
  match wr with
  | OnWriter => True
  | OnArray a => heap s !! a = Some (ArrayWriterObj cap) ∧ has_room cap
  | OnMap m _ => heap s !! m = Some (MapWriterObj cap) ∧ has_room cap
  end.

(** [_encode_value(wr, v)] goes through wherever [wr] can take a commit:
    it returns normally, the encoder gets the key calls of [wr] and then
    [serialize v], the writer of [wr] has committed once, and every other
    object that existed is as it was. *)
Definition encodes_well (v : value) : Prop :=
  ∀ wr cap s,
    ready wr cap s →
    ∃ s', _encode_value wr v s = (Ok tt, s') ∧
          sink s' = sink s ++ key_calls wr ++ serialize v ∧
          committed_heap wr cap (heap s) ⊆ heap s'.

(** * Properties *)

(** ** Basic facts about the primitives *)

Lemma invalid_length_spec (length : pyval) :
  invalid_length length ↔
  length ≠ PyNone ∧
  (isinstance_Integral length = false ∨ py_lt0 length = Some true).
Proof.
  destruct length as [|b|z|q|str]; simpl; unfold py_lt0; simpl.
  - split; [tauto | intros [[] _]; reflexivity].
  - split; [tauto |]. intros [_ [H|H]]; [discriminate|].
    destruct b; discriminate.
  - split.
    + intros Hz. split; [discriminate|]. right.
      apply Z.compare_lt_iff in Hz. now rewrite Hz.
    + intros [_ [H|H]]; [discriminate|].
      destruct (z ?= 0) eqn:E; try discriminate.
      now apply Z.compare_lt_iff.
  - split; [intros _; split; [discriminate | now left] | tauto].
  - split; [intros _; split; [discriminate | now left] | tauto].
Qed.

Lemma fresh_unused (h : gmap loc object) : h !! fresh (dom h) = None.
Proof. apply not_elem_of_dom, is_fresh. Qed.

Lemma fresh_not_live (h : gmap loc object) (w : loc) (o : object) :
  h !! w = Some o → fresh (dom h) ≠ w.
Proof. intros Hw Heq. rewrite <- Heq, fresh_unused in Hw. discriminate. Qed.

(** [__init__] on a rejected length: [ValueError], state untouched. *)
Lemma init_invalid (t : Z) (length : pyval) (w : loc) (s : state) :
  invalid_length length →
  __init__ t length w s = (Raise (ValueError length_message), s).
Proof.
  destruct length as [|b|z|q|str]; simpl; try tauto; try reflexivity.
  intros Hz. unfold __init__, bind, py_lt0; simpl.
  apply Z.compare_lt_iff in Hz. now rewrite Hz.
Qed.

(** [__init__] on an accepted length: the context manager, state untouched. *)
Lemma init_valid (t : Z) (length : pyval) (w : loc) (s : state) :
  ¬ invalid_length length →
  __init__ t length w s =
  (Ok {| cm_major_tag := t; cm_length := length; cm_writer := w |}, s).
Proof.
  destruct length as [|b|z|q|str]; simpl; try tauto; try reflexivity.
  - intros _. unfold __init__, bind, py_lt0; simpl. now destruct b.
  - intros Hz. unfold __init__, bind, py_lt0; simpl.
    destruct (z ?= 0) eqn:E; try reflexivity.
    now contradict Hz.
Qed.

(** ** Sequencing *)

Lemma bind_ok {A B} (c : M A) (k : A → M B) (s s' : state) (a : A) :
  c s = (Ok a, s') → bind c k s = k a s'.
Proof. unfold bind. now intros ->. Qed.

Lemma bind_raise {A B} (c : M A) (k : A → M B) (s s' : state) (e : exn) :
  c s = (Raise e, s') → bind c k s = (Raise e, s').
Proof. unfold bind. now intros ->. Qed.

Lemma final_ignore {A} (c : M A) (s : state) :
  final (ignore c s) = final (c s).
Proof. unfold ignore, bind, ret, final. now destruct (c s) as [[a|e] s']. Qed.

Lemma outcome_ignore_raise {A} (c : M A) (s s' : state) (e : exn) :
  c s = (Raise e, s') → ignore c s = (Raise e, s').
Proof. apply bind_raise. Qed.

(** ** Frame: what a computation leaves alone *)

Section Frame.
Context {A B : Type} (w : loc) (o : object).

Lemma keeps_ret (a : A) : keeps w o (ret a).
Proof. now intros s. Qed.

Lemma keeps_raise (e : exn) : keeps w o (@raise A e).
Proof. now intros s. Qed.

Lemma keeps_lift_op (x : option A) : keeps w o (lift_op x).
Proof. destruct x; [apply keeps_ret | apply keeps_raise]. Qed.

Lemma keeps_bind (c : M A) (k : A → M B) :
  keeps w o c → (∀ a, keeps w o (k a)) → keeps w o (bind c k).
Proof.
  intros Hc Hk s Hs. specialize (Hc s Hs). unfold bind, final in *.
  destruct (c s) as [[a|e] s1]; simpl in *; [now apply Hk | done].
Qed.

Lemma keeps_ignore (c : M A) : keeps w o c → keeps w o (ignore c).
Proof. intros Hc s Hs. rewrite final_ignore. now apply Hc. Qed.

End Frame.

Lemma keeps_emit (w : loc) (o : object) (c : call) : keeps w o (emit c).
Proof. now intros s. Qed.

Lemma keeps_alloc (w : loc) (o o' : object) : keeps w o (alloc o').
Proof.
  intros s Hs. simpl. rewrite lookup_insert_ne; [done|].
  now apply fresh_not_live with o.
Qed.

Lemma keeps_init (w : loc) (o : object) (t : Z) (n : pyval) (l : loc) :
  keeps w o (__init__ t n l).
Proof.
  unfold __init__. destruct (negb _); [apply keeps_raise|].
  apply keeps_bind.
  - destruct (negb _); [apply keeps_lift_op | apply keeps_ret].
  - intros []; [apply keeps_raise | apply keeps_ret].
Qed.

Lemma keeps_array_context_mgr (w : loc) (o : object) (n : pyval) :
  keeps w o (_CBORWriterBase._array_context_mgr n).
Proof. apply keeps_bind; [apply keeps_alloc | intros; apply keeps_init]. Qed.

Lemma keeps_map_context_mgr (w : loc) (o : object) (n : pyval) :
  keeps w o (_CBORWriterBase._map_context_mgr n).
Proof. apply keeps_bind; [apply keeps_alloc | intros; apply keeps_init]. Qed.

Lemma keeps_enter (w : loc) (o : object) (cm : ContextManager) :
  keeps w o (__enter__ cm).
Proof.
  apply keeps_bind; [|intros; apply keeps_ret].
  destruct (is_None _); apply keeps_emit.
Qed.

Lemma keeps_exit (w : loc) (o : object) (cm : ContextManager) :
  keeps w o (__exit__ cm).
Proof.
  unfold __exit__. destruct (is_None _); [apply keeps_emit|].
  apply keeps_bind.
  - intros s Hs. unfold writer_capacity. now destruct (capacity_at _ _).
  - intros c. apply keeps_bind; [apply keeps_lift_op|].
    intros []; [apply keeps_raise | apply keeps_ret].
Qed.

(** [__exit__] never changes the store: no writer is marked as closed. *)
Lemma exit_heap (cm : ContextManager) (s : state) :
  heap (final (__exit__ cm s)) = heap s.
Proof.
  unfold __exit__. destruct (is_None _); [done|].
  unfold bind, writer_capacity, lift_op.
  destruct (capacity_at _ _) as [c|]; [|done].
  destruct (py_gt0 c) as [[]|]; done.
Qed.

(** ** One commit *)

Section ArrayCommit.
Import CBORArrayWriter.
Context (w : loc) (s : state).

Lemma array_commit_exhausted (c : Z) :
  heap s !! w = Some (ArrayWriterObj (PyInt c)) → c ≤ 0 →
  _commit_element w s = (Raise (CBORWriterError exceeded_message), s).
Proof.
  intros Hw Hc. unfold _commit_element, bind, capacity, lift_op, py_le0.
  rewrite Hw; simpl.
  destruct (c ?= 0) eqn:E; try reflexivity.
  apply Z.compare_gt_iff in E. lia.
Qed.

Lemma array_commit_room (c : Z) :
  heap s !! w = Some (ArrayWriterObj (PyInt c)) → 0 < c →
  _commit_element w s =
  (Ok tt, {| sink := sink s;
             heap := <[w := ArrayWriterObj (PyInt (c - 1))]> (heap s) |}).
Proof.
  intros Hw Hc. unfold _commit_element, bind, capacity, lift_op, py_le0.
  rewrite Hw; simpl.
  apply Z.compare_gt_iff in Hc. now rewrite Hc.
Qed.

Lemma array_commit_unbounded :
  heap s !! w = Some (ArrayWriterObj PyNone) →
  _commit_element w s = (Ok tt, s).
Proof.
  intros Hw. unfold _commit_element, bind, capacity. now rewrite Hw.
Qed.

Lemma array_commit_other (w' : loc) (o : object) :
  w' ≠ w ∨ (∀ c, o ≠ ArrayWriterObj c) →
  heap s !! w' = Some o →
  heap (final (_commit_element w s)) !! w' = Some o.
Proof.
  intros Hother Hw'. unfold _commit_element, bind, capacity, lift_op.
  destruct (heap s !! w) as [[|c|c]|] eqn:Hw; try done; simpl.
  destruct (is_None c); [done|]; simpl.
  destruct (py_le0 c) as [[]|]; try done; simpl.
  destruct (py_sub1 c); [|done]; simpl.
  rewrite lookup_insert_ne; [done|].
  intros ->. destruct Hother as [?|Hcls]; [done|].
  rewrite Hw in Hw'. injection Hw' as <-. now apply (Hcls c).
Qed.
End ArrayCommit.

Section MapCommit.
Import CBORMapWriter.
Context (w : loc) (s : state).

Lemma map_commit_exhausted :
  heap s !! w = Some (MapWriterObj (PyInt 0)) →
  _commit_element w s = (Raise (CBORWriterError exceeded_message), s).
Proof.
  intros Hw. unfold _commit_element, bind, capacity. now rewrite Hw.
Qed.

Lemma map_commit_room (c : Z) :
  heap s !! w = Some (MapWriterObj (PyInt c)) → c ≠ 0 →
  _commit_element w s =
  (Ok tt, {| sink := sink s;
             heap := <[w := MapWriterObj (PyInt (c - 1))]> (heap s) |}).
Proof.
  intros Hw Hc. unfold _commit_element, bind, capacity, lift_op.
  rewrite Hw; simpl.
  apply Z.eqb_neq in Hc. now rewrite Hc.
Qed.

Lemma map_commit_unbounded :
  heap s !! w = Some (MapWriterObj PyNone) →
  _commit_element w s = (Ok tt, s).
Proof.
  intros Hw. unfold _commit_element, bind, capacity. now rewrite Hw.
Qed.

Lemma map_commit_other (w' : loc) (o : object) :
  w' ≠ w ∨ (∀ c, o ≠ MapWriterObj c) →
  heap s !! w' = Some o →
  heap (final (_commit_element w s)) !! w' = Some o.
Proof.
  intros Hother Hw'. unfold _commit_element, bind, capacity, lift_op.
  destruct (heap s !! w) as [[|c|c]|] eqn:Hw; try done; simpl.
  destruct (is_None c); [done|]; simpl.
  destruct (py_not c); try done; simpl.
  destruct (py_sub1 c); [|done]; simpl.
  rewrite lookup_insert_ne; [done|].
  intros ->. destruct Hother as [?|Hcls]; [done|].
  rewrite Hw in Hw'. injection Hw' as <-. now apply (Hcls c).
Qed.
End MapCommit.

(** ** One call *)

Ltac keeps_step :=
  first
    [ apply keeps_ignore
    | apply keeps_emit
    | apply keeps_ret
    | apply keeps_array_context_mgr
    | apply keeps_map_context_mgr
    | apply keeps_enter
    | apply keeps_exit
    | apply keeps_bind; [|intros] ].

Ltac keeps_tac := repeat keeps_step.

Lemma commits_on_class (o : object) (c : pyval) (w : loc) (call : op) :
  commits_on (with_capacity o c) w call = commits_on o w call.
Proof. now destruct o. Qed.

(** A call that does not commit on [w] leaves the object at [w] alone. *)
Lemma run_op_other (call : op) (w : loc) (o : object) :
  commits_on o w call = false → keeps w o (run_op call).
Proof.
  intros Hcall.
  assert (Harr : ∀ w', (∀ c, o = ArrayWriterObj c → w' ≠ w) →
            keeps w o (CBORArrayWriter._commit_element w')).
  { intros w' Hne s' Hs'. apply array_commit_other; [|done].
    destruct o as [|c|c]; [right|left; symmetry; now apply (Hne c)|right]; done. }
  assert (Hmap : ∀ w', (∀ c, o = MapWriterObj c → w' ≠ w) →
            keeps w o (CBORMapWriter._commit_element w')).
  { intros w' Hne s' Hs'. apply map_commit_other; [|done].
    destruct o as [|c|c]; [right|right|left; symmetry; now apply (Hne c)]; done. }
  destruct call; simpl in *;
    unfold CBORWriter.write, CBORWriter.array, CBORWriter.map,
           CBORArrayWriter.write, CBORArrayWriter.array, CBORArrayWriter.map,
           CBORMapWriter.write, CBORMapWriter.array, CBORMapWriter.map;
    repeat first
      [ apply Harr; intros c ->; simpl in Hcall; now case_bool_decide
      | apply Hmap; intros c ->; simpl in Hcall; now case_bool_decide
      | keeps_step ].
Qed.

Lemma keeps_after {A} (c : M A) (w : loc) (o : object) (s : state) :
  keeps w o c → heap s !! w = Some o → heap (final (c s)) !! w = Some o.
Proof. intros H. apply H. Qed.

Lemma final_bind_ok {A B} (c : M A) (k : A → M B) (s s' : state) (a : A) :
  c s = (Ok a, s') → final (bind c k s) = final (k a s').
Proof. intros H. now rewrite (bind_ok _ _ _ _ _ H). Qed.

(** A call that commits on a bounded [w] with room left takes exactly one
    unit off its counter, however the rest of the call ends. *)
Lemma run_op_commit_room (call : op) (w : loc) (o : object) (c : Z) (s : state) :
  heap s !! w = Some o →
  capacity_of o = Some (PyInt c) →
  0 < c →
  commits_on o w call = true →
  heap (final (run_op call s)) !! w = Some (with_capacity o (PyInt (c - 1))).
Proof.
  intros Hw Hcap Hc Hcall.
  destruct o as [|c0|c0]; simplify_eq/=.
  - destruct call; simplify_eq/=; case_bool_decide; simplify_eq;
      rewrite ?final_ignore;
      unfold CBORArrayWriter.write, CBORArrayWriter.array, CBORArrayWriter.map;
      rewrite (final_bind_ok _ _ _ _ _ (array_commit_room _ _ _ Hw Hc));
      cbv beta; (apply keeps_after; [keeps_tac | simpl; apply lookup_insert_eq]).
  - assert (Hc' : c ≠ 0) by lia.
    destruct call; simplify_eq/=; case_bool_decide; simplify_eq;
      rewrite ?final_ignore;
      unfold CBORMapWriter.write, CBORMapWriter.array, CBORMapWriter.map;
      rewrite (final_bind_ok _ _ _ _ _ (map_commit_room _ _ _ Hw Hc'));
      cbv beta; (apply keeps_after; [keeps_tac | simpl; apply lookup_insert_eq]).
Qed.

(** A call that commits on a bounded [w] whose counter is at zero raises
    before anything else happens: sink and store are as before. *)
Lemma run_op_commit_exhausted (call : op) (w : loc) (o : object) (s : state) :
  heap s !! w = Some o →
  capacity_of o = Some (PyInt 0) →
  commits_on o w call = true →
  run_op call s = (Raise (CBORWriterError (exceeded_message o)), s).
Proof.
  intros Hw Hcap Hcall.
  destruct o as [|c0|c0]; simplify_eq/=.
  - destruct call; simplify_eq/=; case_bool_decide; simplify_eq;
      try apply outcome_ignore_raise; apply bind_raise;
      now apply array_commit_exhausted with 0.
  - destruct call; simplify_eq/=; case_bool_decide; simplify_eq;
      try apply outcome_ignore_raise; apply bind_raise;
      now apply map_commit_exhausted.
Qed.

(** A call that commits on an unbounded [w] leaves [w] unbounded. *)
Lemma run_op_commit_unbounded (call : op) (w : loc) (o : object) (s : state) :
  heap s !! w = Some o →
  capacity_of o = Some PyNone →
  commits_on o w call = true →
  heap (final (run_op call s)) !! w = Some o.
Proof.
  intros Hw Hcap Hcall.
  destruct o as [|c0|c0]; simplify_eq/=.
  - destruct call; simplify_eq/=; case_bool_decide; simplify_eq;
      rewrite ?final_ignore;
      unfold CBORArrayWriter.write, CBORArrayWriter.array, CBORArrayWriter.map;
      rewrite (final_bind_ok _ _ _ _ _ (array_commit_unbounded _ _ Hw));
      cbv beta; (apply keeps_after; [keeps_tac | done]).
  - destruct call; simplify_eq/=; case_bool_decide; simplify_eq;
      rewrite ?final_ignore;
      unfold CBORMapWriter.write, CBORMapWriter.array, CBORMapWriter.map;
      rewrite (final_bind_ok _ _ _ _ _ (map_commit_unbounded _ _ Hw));
      cbv beta; (apply keeps_after; [keeps_tac | done]).
Qed.

Lemma enter_header (cm : ContextManager) (s : state) :
  __enter__ cm s =
  (Ok (cm_writer cm),
   {| sink := sink s ++ [header (cm_major_tag cm) (cm_length cm)];
      heap := heap s |}).
Proof. unfold __enter__, header, bind. now destruct (is_None _). Qed.

(** ** Scope exit *)

Lemma exit_indefinite (cm : ContextManager) (s : state) :
  cm_length cm = PyNone →
  __exit__ cm s =
  (Ok tt, {| sink := sink s ++ [encode_break]; heap := heap s |}).
Proof. intros Hlen. unfold __exit__. now rewrite Hlen. Qed.

Lemma exit_definite (cm : ContextManager) (c : Z) (s : state) :
  cm_length cm ≠ PyNone →
  capacity_at s (cm_writer cm) = Some (PyInt c) →
  __exit__ cm s =
  if 0 <? c then (Raise (CBORWriterError insufficient_message), s)
  else (Ok tt, s).
Proof.
  intros Hlen Hcap. unfold __exit__.
  destruct (cm_length cm); try done; simpl;
    unfold bind, writer_capacity, lift_op, py_gt0;
    rewrite Hcap; simpl; rewrite Z.ltb_antisym, Z.leb_compare;
    now destruct (c ?= 0).
Qed.


(** C4. An indefinite scope ([length is None]) closes by one call of
    [encode_break] and never raises: [__exit__] appends exactly that one
    terminator, and a [with] block over any body, whether the body returned
    or raised, ends in the body's outcome with the terminator appended
    right after whatever the body wrote. *)
Theorem indefinite_exit_emits_one_break (cm : ContextManager) :
  cm_length cm = PyNone →
  (∀ s, __exit__ cm s =
        (Ok tt, {| sink := sink s ++ [encode_break]; heap := heap s |})) ∧
  (∀ (A : Type) (body : loc → M A) (s : state),
      let body_end := body (cm_writer cm) (final (__enter__ cm s)) in
      with_ cm body s =
      (outcome body_end,
       {| sink := sink (final body_end) ++ [encode_break];
          heap := heap (final body_end) |})).
Proof.
  intros Hlen. split.
  - intros s. now apply exit_indefinite.
  - intros A body s. unfold with_. rewrite enter_header. simpl.
    destruct (body _ _) as [r s2]. now rewrite exit_indefinite.
Qed.

Lemma indefinite_exit_emits_one_break_witness :
  let cm := {| cm_major_tag := 0x80; cm_length := PyNone; cm_writer := 0%nat |} in
  let s := {| sink := []; heap := {[ 0%nat := ArrayWriterObj PyNone ]} |} in
  __exit__ cm s =
    (Ok tt, {| sink := [encode_break]; heap := heap s |}) ∧
  with_ cm (λ a, CBORArrayWriter.write a (PyInt 1) ;;;
                 CBORArrayWriter.write 7%nat (PyInt 2)) s =
    (Raise TypeError,
     {| sink := [encode_indefinite 0x80; encode (PyInt 1); encode_break];
        heap := heap s |}).
Proof.
  intros cm s.
  destruct (indefinite_exit_emits_one_break cm eq_refl) as [Hexit Hwith].
  split; [apply Hexit | apply Hwith].
Defined.

(** C3. A definite scope whose writer still has capacity above zero raises
    [CBORWriterError] (insufficient values) at exit; with the capacity at
    zero exit returns normally. Either way exit leaves the sink and the
    store exactly as they were: no terminator is written. *)
Theorem definite_exit_checks_capacity
    (cm : ContextManager) (n c : Z) (s : state) :
  cm_length cm = PyInt n →
  capacity_at s (cm_writer cm) = Some (PyInt c) →
  (0 < c → __exit__ cm s = (Raise (CBORWriterError insufficient_message), s)) ∧
  (c = 0 → __exit__ cm s = (Ok tt, s)).
Proof.
  intros Hlen Hcap.
  rewrite (exit_definite cm c) by (done || now rewrite Hlen). split.
  - intros Hc. apply Z.ltb_lt in Hc. now rewrite Hc.
  - intros ->. reflexivity.
Qed.

Lemma definite_exit_checks_capacity_witness :
  let cm := {| cm_major_tag := 0x80; cm_length := PyInt 2; cm_writer := 0%nat |} in
  let short := {| sink := [write_encode_length 0x80 (PyInt 2); encode (PyInt 7)];
                  heap := {[ 0%nat := ArrayWriterObj (PyInt 1) ]} |} in
  let full := {| sink := [write_encode_length 0x80 (PyInt 2);
                          encode (PyInt 7); encode (PyInt 8)];
                 heap := {[ 0%nat := ArrayWriterObj (PyInt 0) ]} |} in
  __exit__ cm short = (Raise (CBORWriterError insufficient_message), short) ∧
  __exit__ cm full = (Ok tt, full).
Proof.
  split.
  - apply (definite_exit_checks_capacity _ 2 1); [reflexivity | reflexivity | lia].
  - apply (definite_exit_checks_capacity _ 2 0); reflexivity.
Defined.

(** ** Creating a scope *)

Section ContextMgr.
Import _CBORWriterBase.
Context (length : pyval) (s : state).

Let l : loc := fresh (dom (heap s)).

Lemma array_context_mgr_invalid :
  invalid_length length →
  _array_context_mgr length s =
  (Raise (ValueError length_message),
   {| sink := sink s; heap := <[l := ArrayWriterObj length]> (heap s) |}).
Proof.
  intros H. unfold _array_context_mgr, bind, alloc. now rewrite init_invalid.
Qed.

Lemma map_context_mgr_invalid :
  invalid_length length →
  _map_context_mgr length s =
  (Raise (ValueError length_message),
   {| sink := sink s; heap := <[l := MapWriterObj length]> (heap s) |}).
Proof.
  intros H. unfold _map_context_mgr, bind, alloc. now rewrite init_invalid.
Qed.

Lemma array_context_mgr_valid :
  ¬ invalid_length length →
  _array_context_mgr length s =
  (Ok {| cm_major_tag := 0x80; cm_length := length; cm_writer := l |},
   {| sink := sink s; heap := <[l := ArrayWriterObj length]> (heap s) |}).
Proof.
  intros H. unfold _array_context_mgr, bind, alloc. now rewrite init_valid.
Qed.

Lemma map_context_mgr_valid :
  ¬ invalid_length length →
  _map_context_mgr length s =
  (Ok {| cm_major_tag := 0xA0; cm_length := length; cm_writer := l |},
   {| sink := sink s; heap := <[l := MapWriterObj length]> (heap s) |}).
Proof.
  intros H. unfold _map_context_mgr, bind, alloc. now rewrite init_valid.
Qed.
End ContextMgr.

(** A commit that goes through, for either class. *)
Lemma array_commit_has_room (w : loc) (cap : pyval) (s : state) :
  heap s !! w = Some (ArrayWriterObj cap) → has_room cap →
  CBORArrayWriter._commit_element w s =
  (Ok tt, {| sink := sink s;
             heap := <[w := ArrayWriterObj (committed cap)]> (heap s) |}).
Proof.
  intros Hw Hroom. destruct cap as [| |c| |]; try done; simpl.
  - rewrite array_commit_unbounded by done.
    destruct s as [k h]; simpl in *. now rewrite insert_id.
  - now apply array_commit_room.
Qed.

Lemma map_commit_has_room (w : loc) (cap : pyval) (s : state) :
  heap s !! w = Some (MapWriterObj cap) → has_room cap →
  CBORMapWriter._commit_element w s =
  (Ok tt, {| sink := sink s;
             heap := <[w := MapWriterObj (committed cap)]> (heap s) |}).
Proof.
  intros Hw Hroom. destruct cap as [| |c| |]; try done; simpl in *.
  - rewrite map_commit_unbounded by done.
    destruct s as [k h]; simpl in *. now rewrite insert_id.
  - apply map_commit_room; [done | lia].
Qed.

(** ** The commit discipline *)

(** C5. Take any [write], [array] or [map] call made on an array or map
    writer [w]. If [w] is bounded and its counter is zero the call raises
    [CBORWriterError] (count exceeded) and the whole state, sink included,
    is what it was; if the counter [c] is above zero the call leaves it at
    [c - 1]; if [w] is unbounded its capacity stays [None]. *)
Theorem commit_first (call : op) (w : loc) (o : object) (c : Z) (s : state) :
  heap s !! w = Some o →
  commits_on o w call = true →
  (capacity_of o = Some (PyInt 0) →
   run_op call s = (Raise (CBORWriterError (exceeded_message o)), s)) ∧
  (capacity_of o = Some (PyInt c) → 0 < c →
   heap (final (run_op call s)) !! w = Some (with_capacity o (PyInt (c - 1)))) ∧
  (capacity_of o = Some PyNone →
   heap (final (run_op call s)) !! w = Some o).
Proof.
  intros Hw Hcall. split; [|split].
  - intros Hcap. now apply run_op_commit_exhausted with w.
  - intros Hcap Hc. now apply run_op_commit_room.
  - intros Hcap. now apply run_op_commit_unbounded.
Qed.

Lemma commit_first_witness :
  let at_zero := {| sink := [write_encode_length 0xA0 (PyInt 0)];
                    heap := {[ 0%nat := MapWriterObj (PyInt 0) ]} |} in
  let at_two := {| sink := [write_encode_length 0x80 (PyInt 2)];
                   heap := {[ 0%nat := ArrayWriterObj (PyInt 2) ]} |} in
  let open_ended := {| sink := [encode_indefinite 0x80];
                       heap := {[ 0%nat := ArrayWriterObj PyNone ]} |} in
  run_op (Map_array 0%nat (PyStr "k") (PyInt 3)) at_zero =
    (Raise (CBORWriterError CBORMapWriter.exceeded_message), at_zero) ∧
  heap (final (run_op (Array_map 0%nat (PyInt (-1))) at_two)) !! 0%nat =
    Some (ArrayWriterObj (PyInt 1)) ∧
  heap (final (run_op (Array_write 0%nat (PyInt 9)) open_ended)) !! 0%nat =
    Some (ArrayWriterObj PyNone).
Proof.
  intros at_zero at_two open_ended. split; [|split].
  - apply (commit_first (Map_array 0%nat (PyStr "k") (PyInt 3)) 0%nat
             (MapWriterObj (PyInt 0)) 0); reflexivity.
  - apply (commit_first (Array_map 0%nat (PyInt (-1))) 0%nat
             (ArrayWriterObj (PyInt 2)) 2); [reflexivity..|lia].
  - apply (commit_first (Array_write 0%nat (PyInt 9)) 0%nat
             (ArrayWriterObj PyNone) 0); reflexivity.
Defined.

(** ** The capacity counter *)

Lemma with_capacity_twice (o : object) (c c' : pyval) :
  with_capacity (with_capacity o c) c' = with_capacity o c'.
Proof. now destruct o. Qed.

Lemma count_commits_class (o : object) (c : pyval) (w : loc) (ops : list op) :
  count_commits (with_capacity o c) w ops = count_commits o w ops.
Proof.
  induction ops as [|a ops IH]; simpl; [done|].
  now rewrite commits_on_class, IH.
Qed.

Lemma count_commits_nonneg (o : object) (w : loc) (ops : list op) :
  0 ≤ count_commits o w ops.
Proof.
  induction ops as [|a ops IH]; simpl; [done|].
  destruct (commits_on o w a); lia.
Qed.

Lemma with_capacity_id (o : object) (c : pyval) :
  capacity_of o = Some c → with_capacity o c = o.
Proof. destruct o; simpl; congruence. Qed.

Lemma capacity_of_with (o : object) (c c' : pyval) :
  capacity_of o = Some c → capacity_of (with_capacity o c') = Some c'.
Proof. destruct o; simpl; congruence. Qed.

(** The counter of [w] after any sequence of calls, in closed form. *)
Lemma run_ops_capacity (ops : list op) :
  ∀ (n : Z) (o : object) (w : loc) (s : state),
    0 ≤ n →
    heap s !! w = Some o →
    capacity_of o = Some (PyInt n) →
    heap (run_ops ops s) !! w =
    Some (with_capacity o (PyInt (Z.max 0 (n - count_commits o w ops)))).
Proof.
  induction ops as [|a ops IH]; intros n o w s Hn Hw Hcap; simpl.
  - rewrite Z.sub_0_r, Z.max_r by lia. now rewrite with_capacity_id.
  - destruct (commits_on o w a) eqn:Ha.
    + destruct (decide (n = 0)) as [->|Hpos].
      * rewrite (run_op_commit_exhausted a w o s) by done. simpl.
        rewrite (IH 0 o w s) by done.
        pose proof (count_commits_nonneg o w ops).
        do 2 f_equal. f_equal. lia.
      * assert (Hroom : 0 < n) by lia.
        pose proof (run_op_commit_room a w o n s Hw Hcap Hroom Ha) as Hstep.
        rewrite (IH (n - 1) (with_capacity o (PyInt (n - 1))) w
                   (final (run_op a s)));
          [|lia|done|now apply capacity_of_with with (PyInt n)].
        rewrite with_capacity_twice, count_commits_class.
        do 2 f_equal. f_equal. lia.
    + rewrite (IH n o w) by (try done; now apply run_op_other).
      do 2 f_equal.
Qed.

(** C9. A writer created for a declared size [n] starts with its counter
    at [n]. After any sequence of calls whatsoever (on it or on anything
    else, failed or not) the counter is [n] less the number of calls that
    committed on it, stopping at zero: each commit that goes through takes
    exactly one unit, the ones beyond [n] are refused, and the counter is
    never negative. *)
Theorem capacity_counter (n : Z) (s : state) (ops : list op) :
  0 ≤ n →
  (∃ cm s1,
      _CBORWriterBase._array_context_mgr (PyInt n) s = (Ok cm, s1) ∧
      heap s1 !! cm_writer cm = Some (ArrayWriterObj (PyInt n)) ∧
      ∃ m, heap (run_ops ops s1) !! cm_writer cm = Some (ArrayWriterObj (PyInt m)) ∧
           m = Z.max 0 (n - count_commits (ArrayWriterObj (PyInt n)) (cm_writer cm) ops) ∧
           0 ≤ m) ∧
  (∃ cm s1,
      _CBORWriterBase._map_context_mgr (PyInt n) s = (Ok cm, s1) ∧
      heap s1 !! cm_writer cm = Some (MapWriterObj (PyInt n)) ∧
      ∃ m, heap (run_ops ops s1) !! cm_writer cm = Some (MapWriterObj (PyInt m)) ∧
           m = Z.max 0 (n - count_commits (MapWriterObj (PyInt n)) (cm_writer cm) ops) ∧
           0 ≤ m).
Proof.
  intros Hn.
  assert (Hvalid : ¬ invalid_length (PyInt n)) by (simpl; lia).
  split.
  - eexists _, _. split; [now apply array_context_mgr_valid|]. simpl.
    split; [apply lookup_insert_eq|].
    eexists. split; [|split; [reflexivity|lia]].
    apply (run_ops_capacity ops n (ArrayWriterObj (PyInt n))); try done.
    apply lookup_insert_eq.
  - eexists _, _. split; [now apply map_context_mgr_valid|]. simpl.
    split; [apply lookup_insert_eq|].
    eexists. split; [|split; [reflexivity|lia]].
    apply (run_ops_capacity ops n (MapWriterObj (PyInt n))); try done.
    apply lookup_insert_eq.
Qed.

Lemma capacity_counter_witness :
  let ops := [Array_write 0%nat (PyInt 10); Array_array 0%nat (PyInt (-1));
              Map_write 0%nat (PyInt 1) (PyInt 2); Array_write 0%nat (PyInt 11);
              Array_map 0%nat PyNone] in
  (∃ cm s1,
      _CBORWriterBase._array_context_mgr (PyInt 2) empty_state = (Ok cm, s1) ∧
      heap s1 !! cm_writer cm = Some (ArrayWriterObj (PyInt 2)) ∧
      ∃ m, heap (run_ops ops s1) !! cm_writer cm = Some (ArrayWriterObj (PyInt m)) ∧
           m = Z.max 0 (2 - count_commits (ArrayWriterObj (PyInt 2)) (cm_writer cm) ops) ∧
           0 ≤ m) ∧
  (∃ cm s1,
      _CBORWriterBase._map_context_mgr (PyInt 2) empty_state = (Ok cm, s1) ∧
      heap s1 !! cm_writer cm = Some (MapWriterObj (PyInt 2)) ∧
      ∃ m, heap (run_ops ops s1) !! cm_writer cm = Some (MapWriterObj (PyInt m)) ∧
           m = Z.max 0 (2 - count_commits (MapWriterObj (PyInt 2)) (cm_writer cm) ops) ∧
           0 ≤ m).
Proof. intros ops. apply (capacity_counter 2 empty_state ops). lia. Defined.

(** ** Nested scopes *)

(** A nested call on a writer with room is the creation of the context
    manager in the state the commit (and, on a map, the key) have left. *)
Section NestedCalls.
Context (w : loc) (cap : pyval) (s : state) (Hroom : has_room cap).

Let array_committed : state :=
  {| sink := sink s;
     heap := <[w := ArrayWriterObj (committed cap)]> (heap s) |}.

Let map_committed (key : pyval) : state :=
  {| sink := sink s ++ [encode key];
     heap := <[w := MapWriterObj (committed cap)]> (heap s) |}.

Lemma array_array_unfold (length : pyval) :
  heap s !! w = Some (ArrayWriterObj cap) →
  CBORArrayWriter.array w length s =
  _CBORWriterBase._array_context_mgr length array_committed.
Proof.
  intros Hw. unfold CBORArrayWriter.array.
  now rewrite (bind_ok _ _ _ _ _ (array_commit_has_room _ _ _ Hw Hroom)).
Qed.

Lemma array_map_unfold (length : pyval) :
  heap s !! w = Some (ArrayWriterObj cap) →
  CBORArrayWriter.map w length s =
  _CBORWriterBase._map_context_mgr length array_committed.
Proof.
  intros Hw. unfold CBORArrayWriter.map.
  now rewrite (bind_ok _ _ _ _ _ (array_commit_has_room _ _ _ Hw Hroom)).
Qed.

Lemma map_array_unfold (key length : pyval) :
  heap s !! w = Some (MapWriterObj cap) →
  CBORMapWriter.array w key length s =
  _CBORWriterBase._array_context_mgr length (map_committed key).
Proof.
  intros Hw. unfold CBORMapWriter.array.
  now rewrite (bind_ok _ _ _ _ _ (map_commit_has_room _ _ _ Hw Hroom)).
Qed.

Lemma map_map_unfold (key length : pyval) :
  heap s !! w = Some (MapWriterObj cap) →
  CBORMapWriter.map w key length s =
  _CBORWriterBase._map_context_mgr length (map_committed key).
Proof.
  intros Hw. unfold CBORMapWriter.map.
  now rewrite (bind_ok _ _ _ _ _ (map_commit_has_room _ _ _ Hw Hroom)).
Qed.
End NestedCalls.

Lemma lookup_after_alloc (h : gmap loc object) (w : loc) (o o' : object) :
  <[fresh (dom (<[w := o]> h)) := o']> (<[w := o]> h) !! w = Some o.
Proof.
  rewrite lookup_insert_ne; [apply lookup_insert_eq|].
  apply fresh_not_live with o, lookup_insert_eq.
Qed.

(** C10. On a bounded writer with its counter [c] above zero, a nested
    [array]/[map] call with a rejected length raises [ValueError], and by
    then the counter is [c - 1]: the commit is not undone. *)
Theorem rejected_length_keeps_commit
    (w : loc) (c : Z) (key length : pyval) (s : state) :
  0 < c →
  invalid_length length →
  (heap s !! w = Some (ArrayWriterObj (PyInt c)) →
   rejected_with w (ArrayWriterObj (PyInt (c - 1)))
     (CBORArrayWriter.array w length s) ∧
   rejected_with w (ArrayWriterObj (PyInt (c - 1)))
     (CBORArrayWriter.map w length s)) ∧
  (heap s !! w = Some (MapWriterObj (PyInt c)) →
   rejected_with w (MapWriterObj (PyInt (c - 1)))
     (CBORMapWriter.array w key length s) ∧
   rejected_with w (MapWriterObj (PyInt (c - 1)))
     (CBORMapWriter.map w key length s)).
Proof.
  intros Hc Hbad. unfold rejected_with. split; intros Hw.
  - rewrite (array_array_unfold w (PyInt c)), (array_map_unfold w (PyInt c)),
      array_context_mgr_invalid, map_context_mgr_invalid by done.
    simpl. repeat split; apply lookup_after_alloc.
  - rewrite (map_array_unfold w (PyInt c)), (map_map_unfold w (PyInt c)),
      array_context_mgr_invalid, map_context_mgr_invalid by done.
    simpl. repeat split; apply lookup_after_alloc.
Qed.

Lemma rejected_length_keeps_commit_witness :
  let in_array := {| sink := [write_encode_length 0x80 (PyInt 3)];
                     heap := {[ 5%nat := ArrayWriterObj (PyInt 3) ]} |} in
  let in_map := {| sink := [write_encode_length 0xA0 (PyInt 3)];
                   heap := {[ 5%nat := MapWriterObj (PyInt 3) ]} |} in
  (rejected_with 5%nat (ArrayWriterObj (PyInt 2))
     (CBORArrayWriter.array 5%nat (PyInt (-1)) in_array) ∧
   rejected_with 5%nat (ArrayWriterObj (PyInt 2))
     (CBORArrayWriter.map 5%nat (PyInt (-1)) in_array)) ∧
  (rejected_with 5%nat (MapWriterObj (PyInt 2))
     (CBORMapWriter.array 5%nat (PyStr "k") (PyFloat 1.5) in_map) ∧
   rejected_with 5%nat (MapWriterObj (PyInt 2))
     (CBORMapWriter.map 5%nat (PyStr "k") (PyFloat 1.5) in_map)).
Proof.
  intros in_array in_map. split.
  - apply (rejected_length_keeps_commit 5%nat 3 PyNone (PyInt (-1)) in_array);
      [lia | simpl; lia | reflexivity].
  - apply (rejected_length_keeps_commit 5%nat 3 (PyStr "k") (PyFloat 1.5) in_map);
      [lia | exact I | reflexivity].
Defined.

(** A sequence of calls none of which commits on [w] leaves [w] alone. *)
Lemma run_ops_other (ops : list op) :
  ∀ (w : loc) (o : object) (s : state),
    heap s !! w = Some o →
    count_commits o w ops = 0 →
    heap (run_ops ops s) !! w = Some o.
Proof.
  induction ops as [|a ops IH]; intros w o s Hw Hcount; simpl in *; [done|].
  pose proof (count_commits_nonneg o w ops).
  destruct (commits_on o w a) eqn:Ha; [lia|].
  apply IH; [now apply run_op_other | lia].
Qed.

(** C6. A nested [array]/[map] call on a bounded writer with counter [c]
    above zero returns with the parent's counter at [c - 1] and with no
    header written yet (on a map, the key alone has been encoded); the
    header is written by [__enter__], which does not touch the parent; and
    nothing done afterwards to the nested writer changes the parent. This
    holds whatever length the nested container declares. *)
Theorem nested_scope_takes_one_slot
    (parent : loc) (c : Z) (key length : pyval) (s : state) :
  0 < c →
  ¬ invalid_length length →
  (heap s !! parent = Some (ArrayWriterObj (PyInt c)) →
   nested_opened parent (ArrayWriterObj (PyInt (c - 1))) []
     (header 0x80 length) (ArrayWriterObj length) s
     (CBORArrayWriter.array parent length s) ∧
   nested_opened parent (ArrayWriterObj (PyInt (c - 1))) []
     (header 0xA0 length) (MapWriterObj length) s
     (CBORArrayWriter.map parent length s)) ∧
  (heap s !! parent = Some (MapWriterObj (PyInt c)) →
   nested_opened parent (MapWriterObj (PyInt (c - 1))) [encode key]
     (header 0x80 length) (ArrayWriterObj length) s
     (CBORMapWriter.array parent key length s) ∧
   nested_opened parent (MapWriterObj (PyInt (c - 1))) [encode key]
     (header 0xA0 length) (MapWriterObj length) s
     (CBORMapWriter.map parent key length s)).
Proof.
  intros Hc Hgood.
  assert (Hopened : ∀ (o o' : object) (pre : list call) (t : Z) (h : gmap loc object),
    let l := fresh (dom (<[parent := o]> h)) in
    nested_opened parent o pre (header t length) o' s
      (Ok {| cm_major_tag := t; cm_length := length; cm_writer := l |},
       {| sink := sink s ++ pre; heap := <[l := o']> (<[parent := o]> h) |})).
  { intros o o' pre t h l. eexists _, _. split; [reflexivity|]. simpl.
    assert (Hl : l ≠ parent) by apply fresh_not_live with o, lookup_insert_eq.
    split; [done|]. split; [apply lookup_after_alloc|].
    split; [done|]. split; [apply lookup_insert_eq|].
    split; [apply enter_header|].
    intros ops Hops. apply run_ops_other; [|done].
    rewrite enter_header. simpl. apply lookup_after_alloc. }
  split; intros Hw.
  - rewrite (array_array_unfold parent (PyInt c)),
      (array_map_unfold parent (PyInt c)),
      array_context_mgr_valid, map_context_mgr_valid by done.
    simpl.
    split;
      match goal with
      | |- nested_opened _ ?o _ (header ?t _) ?o' _
             (_, {| sink := _; heap := <[_ := _]> (<[_ := _]> ?h) |}) =>
          pose proof (Hopened o o' [] t h) as H
      end;
      cbv zeta in H; rewrite app_nil_r in H; exact H.
  - rewrite (map_array_unfold parent (PyInt c)),
      (map_map_unfold parent (PyInt c)),
      array_context_mgr_valid, map_context_mgr_valid by done.
    simpl. split; apply Hopened.
Qed.

Lemma nested_scope_takes_one_slot_witness :
  let in_array := {| sink := [write_encode_length 0x80 (PyInt 3)];
                     heap := {[ 5%nat := ArrayWriterObj (PyInt 3) ]} |} in
  let in_map := {| sink := [write_encode_length 0xA0 (PyInt 1)];
                   heap := {[ 5%nat := MapWriterObj (PyInt 1) ]} |} in
  (nested_opened 5%nat (ArrayWriterObj (PyInt 2)) []
     (header 0x80 (PyInt 40)) (ArrayWriterObj (PyInt 40)) in_array
     (CBORArrayWriter.array 5%nat (PyInt 40) in_array) ∧
   nested_opened 5%nat (ArrayWriterObj (PyInt 2)) []
     (header 0xA0 (PyInt 40)) (MapWriterObj (PyInt 40)) in_array
     (CBORArrayWriter.map 5%nat (PyInt 40) in_array)) ∧
  (nested_opened 5%nat (MapWriterObj (PyInt 0)) [encode (PyStr "k")]
     (header 0x80 PyNone) (ArrayWriterObj PyNone) in_map
     (CBORMapWriter.array 5%nat (PyStr "k") PyNone in_map) ∧
   nested_opened 5%nat (MapWriterObj (PyInt 0)) [encode (PyStr "k")]
     (header 0xA0 PyNone) (MapWriterObj PyNone) in_map
     (CBORMapWriter.map 5%nat (PyStr "k") PyNone in_map)).
Proof.
  intros in_array in_map. split.
  - apply (nested_scope_takes_one_slot 5%nat 3 PyNone (PyInt 40) in_array);
      [lia | simpl; lia | reflexivity].
  - apply (nested_scope_takes_one_slot 5%nat 1 (PyStr "k") PyNone in_map);
      [lia | simpl; tauto | reflexivity].
Defined.

(** ** Rejected lengths and the sink *)

(** C1, as the code has it. A rejected length raises [ValueError] without
    any container header being written. [CBORWriter] and an array writer
    with room write nothing at all; a map writer with room has encoded the
    key by the time the length is checked. *)
Theorem rejected_length_writes_no_header
    (w : loc) (cap key length : pyval) (s : state) :
  invalid_length length →
  has_room cap →
  (rejected_after [] s (CBORWriter.array length s) ∧
   rejected_after [] s (CBORWriter.map length s)) ∧
  (heap s !! w = Some (ArrayWriterObj cap) →
   rejected_after [] s (CBORArrayWriter.array w length s) ∧
   rejected_after [] s (CBORArrayWriter.map w length s)) ∧
  (heap s !! w = Some (MapWriterObj cap) →
   rejected_after [encode key] s (CBORMapWriter.array w key length s) ∧
   rejected_after [encode key] s (CBORMapWriter.map w key length s)).
Proof.
  intros Hbad Hroom. unfold rejected_after. split; [|split].
  - unfold CBORWriter.array, CBORWriter.map.
    rewrite array_context_mgr_invalid, map_context_mgr_invalid by done.
    simpl. now rewrite app_nil_r.
  - intros Hw.
    rewrite (array_array_unfold w cap), (array_map_unfold w cap),
      array_context_mgr_invalid, map_context_mgr_invalid by done.
    simpl. now rewrite app_nil_r.
  - intros Hw.
    rewrite (map_array_unfold w cap), (map_map_unfold w cap),
      array_context_mgr_invalid, map_context_mgr_invalid by done.
    done.
Qed.

Lemma rejected_length_writes_no_header_witness :
  let in_array := {| sink := [write_encode_length 0x80 (PyInt 3)];
                     heap := {[ 5%nat := ArrayWriterObj (PyInt 3) ]} |} in
  let in_map := {| sink := [encode_indefinite 0xA0];
                   heap := {[ 5%nat := MapWriterObj PyNone ]} |} in
  (rejected_after [] in_array (CBORArrayWriter.array 5%nat (PyInt (-1)) in_array) ∧
   rejected_after [] in_array (CBORArrayWriter.map 5%nat (PyInt (-1)) in_array)) ∧
  (rejected_after [encode (PyStr "k")] in_map
     (CBORMapWriter.array 5%nat (PyStr "k") (PyStr "3") in_map) ∧
   rejected_after [encode (PyStr "k")] in_map
     (CBORMapWriter.map 5%nat (PyStr "k") (PyStr "3") in_map)).
Proof.
  intros in_array in_map. split.
  - apply (rejected_length_writes_no_header 5%nat (PyInt 3) PyNone (PyInt (-1))
             in_array); [simpl; lia | simpl; lia | reflexivity].
  - apply (rejected_length_writes_no_header 5%nat PyNone (PyStr "k") (PyStr "3")
             in_map); [exact I | exact I | reflexivity].
Defined.

(** C1, as stated, fails. In an open indefinite map, [array(key, -1)]
    raises [ValueError] after [encode(key)] has reached the sink; and in
    an array declared with no element, [array(2.5)] raises
    [CBORWriterError], not [ValueError]. *)
Lemma rejected_length_after_key :
  let opened := (cm <- CBORWriter.map PyNone ;; __enter__ cm) empty_state in
  let r := CBORMapWriter.array 0%nat (PyStr "k") (PyInt (-1)) (final opened) in
  let full := (cm <- CBORWriter.array (PyInt 0) ;; __enter__ cm) empty_state in
  let r' := CBORArrayWriter.array 0%nat (PyFloat 2.5) (final full) in
  (outcome opened = Ok 0%nat ∧
   sink (final opened) = [encode_indefinite 0xA0] ∧
   outcome r = Raise (ValueError length_message) ∧
   sink (final r) = [encode_indefinite 0xA0; encode (PyStr "k")]) ∧
  (outcome full = Ok 0%nat ∧
   outcome r' = Raise (CBORWriterError CBORArrayWriter.exceeded_message)).
Proof. vm_compute. repeat apply conj; reflexivity. Qed.

(** ** After the scope *)

Lemma array_write_has_room (w : loc) (cap v : pyval) (s : state) :
  heap s !! w = Some (ArrayWriterObj cap) → has_room cap →
  CBORArrayWriter.write w v s =
  (Ok tt, {| sink := sink s ++ [encode v];
             heap := <[w := ArrayWriterObj (committed cap)]> (heap s) |}).
Proof.
  intros Hw Hroom. unfold CBORArrayWriter.write.
  now rewrite (bind_ok _ _ _ _ _ (array_commit_has_room _ _ _ Hw Hroom)).
Qed.

Lemma map_write_has_room (w : loc) (cap k v : pyval) (s : state) :
  heap s !! w = Some (MapWriterObj cap) → has_room cap →
  CBORMapWriter.write w k v s =
  (Ok tt, {| sink := sink s ++ [encode k; encode v];
             heap := <[w := MapWriterObj (committed cap)]> (heap s) |}).
Proof.
  intros Hw Hroom. unfold CBORMapWriter.write.
  rewrite (bind_ok _ _ _ _ _ (map_commit_has_room _ _ _ Hw Hroom)).
  unfold bind, emit; simpl. now rewrite <- app_assoc.
Qed.

Lemma map_write_exhausted (w : loc) (k v : pyval) (s : state) :
  heap s !! w = Some (MapWriterObj (PyInt 0)) →
  CBORMapWriter.write w k v s =
  (Raise (CBORWriterError CBORMapWriter.exceeded_message), s).
Proof. intros Hw. now apply bind_raise, map_commit_exhausted. Qed.

(** C2, as the code has it. [__exit__] changes no object: a writer carries
    no mark of being closed. What stops a call after the scope is the
    counter alone: once a definite scope has exited without error its
    counter is zero, so any further [write]/[array]/[map] on its writer
    raises [CBORWriterError] (count exceeded) and changes nothing; on the
    writer of an indefinite scope a further [write] goes through and lands
    in the sink after the terminator. *)
Theorem exit_closes_nothing
    (cm : ContextManager) (o : object) (call : op) (c : Z) (k v : pyval)
    (s : state) :
  heap s !! cm_writer cm = Some o →
  commits_on o (cm_writer cm) call = true →
  let s' := final (__exit__ cm s) in
  heap s' = heap s ∧
  (cm_length cm ≠ PyNone → capacity_of o = Some (PyInt c) → 0 ≤ c →
   outcome (__exit__ cm s) = Ok tt →
   s' = s ∧
   run_op call s' = (Raise (CBORWriterError (exceeded_message o)), s')) ∧
  (cm_length cm = PyNone → o = ArrayWriterObj PyNone →
   CBORArrayWriter.write (cm_writer cm) v s' =
   (Ok tt, {| sink := sink s ++ [encode_break; encode v]; heap := heap s |})) ∧
  (cm_length cm = PyNone → o = MapWriterObj PyNone →
   CBORMapWriter.write (cm_writer cm) k v s' =
   (Ok tt, {| sink := sink s ++ [encode_break; encode k; encode v];
              heap := heap s |})).
Proof.
  intros Hw Hcall s'. split; [apply exit_heap|]. split; [|split].
  - intros Hlen Hcap Hc. subst s'.
    rewrite (exit_definite cm c) by (done || (unfold capacity_at; now rewrite Hw)).
    destruct (0 <? c) eqn:E; [done|]. intros _.
    apply Z.ltb_ge in E. assert (c = 0) as -> by lia.
    split; [done|]. now apply run_op_commit_exhausted with (cm_writer cm).
  - intros Hlen ->.
    subst s'. rewrite exit_indefinite by done. simpl.
    rewrite (array_write_has_room _ PyNone); [|done..]. simpl.
    rewrite insert_id by done. now rewrite <- app_assoc.
  - intros Hlen ->.
    subst s'. rewrite exit_indefinite by done. simpl.
    rewrite (map_write_has_room _ PyNone); [|done..]. simpl.
    rewrite insert_id by done. now rewrite <- app_assoc.
Qed.

Lemma exit_closes_nothing_witness :
  let fixed := {| cm_major_tag := 0x80; cm_length := PyInt 1; cm_writer := 0%nat |} in
  let done_ := {| sink := [write_encode_length 0x80 (PyInt 1); encode (PyInt 7)];
                  heap := {[ 0%nat := ArrayWriterObj (PyInt 0) ]} |} in
  let open_ended := {| cm_major_tag := 0xA0; cm_length := PyNone; cm_writer := 0%nat |} in
  let some := {| sink := [encode_indefinite 0xA0];
                 heap := {[ 0%nat := MapWriterObj PyNone ]} |} in
  run_op (Array_write 0%nat (PyInt 8)) (final (__exit__ fixed done_)) =
    (Raise (CBORWriterError CBORArrayWriter.exceeded_message),
     final (__exit__ fixed done_)) ∧
  CBORMapWriter.write 0%nat (PyStr "k") (PyInt 8) (final (__exit__ open_ended some)) =
    (Ok tt, {| sink := [encode_indefinite 0xA0; encode_break;
                        encode (PyStr "k"); encode (PyInt 8)];
               heap := heap some |}).
Proof.
  intros fixed done_ open_ended some. split.
  - apply (exit_closes_nothing fixed (ArrayWriterObj (PyInt 0))
             (Array_write 0%nat (PyInt 8)) 0 PyNone PyNone done_);
      [reflexivity | reflexivity | discriminate | reflexivity | lia | reflexivity].
  - apply (exit_closes_nothing open_ended (MapWriterObj PyNone)
             (Map_write 0%nat PyNone PyNone) 0 (PyStr "k") (PyInt 8) some);
      reflexivity.
Defined.

(** C2, as stated, fails. An indefinite array is opened, written to and
    left; the [write] made on its writer afterwards returns normally and
    its value reaches the sink, after the terminator. *)
Lemma write_after_exit_goes_through :
  let run :=
    (cm <- CBORWriter.array PyNone ;;
     a <- with_ cm (λ a, CBORArrayWriter.write a (PyInt 1) ;;; ret a) ;;
     CBORArrayWriter.write a (PyInt 2)) empty_state in
  outcome run = Ok tt ∧
  sink (final run) =
    [encode_indefinite 0x80; encode (PyInt 1); encode_break; encode (PyInt 2)].
Proof. vm_compute. split; reflexivity. Qed.

(** ** What reaches the encoder *)

(** C7. From any state, [with CBORWriter.array() as a:] followed by
    [a.write(1)], [a.write(2)], [a.write(3)], [a.write(4)] returns
    normally, and the encoder has been asked, in this order and for
    nothing else: the indefinite-length start of an array, the four
    values, the break. *)
Theorem indefinite_array_of_four (s : state) :
  let run :=
    with_call (CBORWriter.array PyNone) (λ a,
      CBORArrayWriter.write a (PyInt 1) ;;;
      CBORArrayWriter.write a (PyInt 2) ;;;
      CBORArrayWriter.write a (PyInt 3) ;;;
      CBORArrayWriter.write a (PyInt 4)) s in
  outcome run = Ok tt ∧
  sink (final run) =
    sink s ++ [encode_indefinite 0x80;
               encode (PyInt 1); encode (PyInt 2);
               encode (PyInt 3); encode (PyInt 4);
               encode_break].
Proof.
  intros run. subst run. unfold with_call, CBORWriter.array.
  rewrite (bind_ok _ _ _ _ _ (array_context_mgr_valid PyNone s (λ H, H))).
  unfold with_. rewrite enter_header. simpl.
  set (a := fresh (dom (heap s))).
  assert (Hwrite : ∀ v k, CBORArrayWriter.write a v
            {| sink := k; heap := <[a := ArrayWriterObj PyNone]> (heap s) |} =
            (Ok tt, {| sink := k ++ [encode v];
                       heap := <[a := ArrayWriterObj PyNone]> (heap s) |})).
  { intros v k. rewrite (array_write_has_room a PyNone); simpl;
      [|apply lookup_insert_eq|done].
    now rewrite insert_insert_eq. }
  rewrite !(bind_ok _ _ _ _ _ (Hwrite _ _)), Hwrite.
  simpl. split; [done|]. now rewrite <- !app_assoc.
Qed.

(** The same run on a new encoder. *)
Example indefinite_array_of_four_calls :
  sink (final (with_call (CBORWriter.array PyNone) (λ a,
      CBORArrayWriter.write a (PyInt 1) ;;;
      CBORArrayWriter.write a (PyInt 2) ;;;
      CBORArrayWriter.write a (PyInt 3) ;;;
      CBORArrayWriter.write a (PyInt 4)) empty_state)) =
  [encode_indefinite 0x80; encode (PyInt 1); encode (PyInt 2);
   encode (PyInt 3); encode (PyInt 4); encode_break].
Proof. vm_compute. reflexivity. Qed.

Lemma accepted_cons (c : Z) (p : pyval * pyval) (pairs : list (pyval * pyval)) :
  0 < c →
  accepted (PyInt c) (p :: pairs) = p :: accepted (PyInt (c - 1)) pairs.
Proof.
  intros Hc. unfold accepted.
  replace (Z.to_nat c) with (S (Z.to_nat (c - 1))) by lia. done.
Qed.

(** C8. [write(key, value)] calls on a map writer reach the encoder as
    the flat sequence key, value, key, value, ... in the order of the
    calls, with nothing in between and nothing reordered or dropped: on an
    unbounded writer for all the pairs, on a bounded one for the pairs up
    to its declared count, after which the first refused call ends the
    run. *)
Theorem map_pairs_in_submission_order (pairs : list (pyval * pyval)) :
  ∀ (w : loc) (cap : pyval) (s : state),
    heap s !! w = Some (MapWriterObj cap) →
    scope_capacity cap →
    let r := write_pairs w pairs s in
    sink (final r) = sink s ++ flat_pairs (accepted cap pairs) ∧
    (accepted cap pairs = pairs → outcome r = Ok tt) ∧
    (accepted cap pairs ≠ pairs →
     outcome r = Raise (CBORWriterError CBORMapWriter.exceeded_message)).
Proof.
  induction pairs as [|[k v] rest IH]; intros w cap s Hw Hcap r; subst r.
  - simpl.
    assert (accepted cap [] = []) as ->
      by (destruct cap; simpl; try done; apply take_nil).
    simpl. rewrite app_nil_r. done.
  - simpl.
    destruct cap as [| |c| |]; try done; simpl in Hcap.
    + rewrite (bind_ok _ _ _ _ _ (map_write_has_room w PyNone k v s Hw I)).
      match goal with
      | |- context [write_pairs w rest ?s1] =>
          destruct (IH w PyNone s1) as (Hsink & Hok & Hraise);
            [apply lookup_insert_eq | exact I |]
      end.
      rewrite Hsink. simpl. rewrite <- app_assoc. simpl in *.
      split; [done|]. split; [intros _; now apply Hok | done].
    + destruct (decide (c = 0)) as [->|Hpos].
      * rewrite (bind_raise _ _ _ _ _ (map_write_exhausted w k v s Hw)).
        simpl. rewrite app_nil_r. done.
      * assert (Hc : 0 < c) by lia.
        rewrite (bind_ok _ _ _ _ _ (map_write_has_room w (PyInt c) k v s Hw Hc)).
        rewrite accepted_cons by done.
        match goal with
        | |- context [write_pairs w rest ?s1] =>
            destruct (IH w (PyInt (c - 1)) s1) as (Hsink & Hok & Hraise);
              [apply lookup_insert_eq | simpl; lia |]
        end.
        rewrite Hsink. simpl. rewrite <- app_assoc.
        split; [done|].
        split; intros H; [apply Hok | apply Hraise; intros E; apply H];
          unfold accepted in *; congruence.
Qed.

Lemma map_pairs_in_submission_order_witness :
  let s := {| sink := [write_encode_length 0xA0 (PyInt 2)];
              heap := {[ 0%nat := MapWriterObj (PyInt 2) ]} |} in
  let pairs := [(PyStr "b", PyInt 2); (PyStr "a", PyInt 1)] in
  let r := write_pairs 0%nat pairs s in
  sink (final r) =
    sink s ++ [encode (PyStr "b"); encode (PyInt 2);
               encode (PyStr "a"); encode (PyInt 1)] ∧
  outcome r = Ok tt.
Proof.
  intros s pairs r.
  destruct (map_pairs_in_submission_order pairs 0%nat (PyInt 2) s)
    as (Hsink & Hok & _); [reflexivity | simpl; lia |].
  split; [exact Hsink | now apply Hok].
Defined.


(** * Further properties *)

(** ** Whole blocks *)

Lemma array_write_exhausted (w : loc) (v : pyval) (s : state) :
  heap s !! w = Some (ArrayWriterObj (PyInt 0)) →
  CBORArrayWriter.write w v s =
  (Raise (CBORWriterError CBORArrayWriter.exceeded_message), s).
Proof. intros Hw. now apply bind_raise, array_commit_exhausted with 0. Qed.

(** The loop of [write] calls on a bounded array writer. *)
Lemma write_values_bounded (a : loc) (values : list pyval) :
  ∀ (c : Z) (s : state),
    0 ≤ c →
    heap s !! a = Some (ArrayWriterObj (PyInt c)) →
    write_values a values s =
    ((if decide (Z.of_nat (length values) ≤ c) then Ok tt
      else Raise (CBORWriterError CBORArrayWriter.exceeded_message)),
     {| sink := sink s ++ (encode <$> take (Z.to_nat c) values);
        heap := <[a := ArrayWriterObj
                         (PyInt (Z.max 0 (c - Z.of_nat (length values))))]>
                  (heap s) |}).
Proof.
  induction values as [|v rest IH]; intros c s Hc Ha; simpl.
  - rewrite take_nil, app_nil_r, Z.sub_0_r, Z.max_r by lia.
    rewrite insert_id by done. rewrite decide_True by lia.
    now destruct s.
  - destruct (decide (c = 0)) as [->|Hpos].
    + rewrite (bind_raise _ _ _ _ _ (array_write_exhausted a v s Ha)).
      rewrite decide_False by lia. simpl.
      rewrite app_nil_r, Z.max_l by lia. rewrite insert_id by done.
      now destruct s.
    + assert (Hroom : has_room (PyInt c)) by (simpl; lia).
      rewrite (bind_ok _ _ _ _ _ (array_write_has_room a _ v s Ha Hroom)).
      rewrite (IH (c - 1)); [|lia|apply lookup_insert_eq]. simpl.
      rewrite insert_insert_eq, <- app_assoc.
      replace (Z.to_nat c) with (S (Z.to_nat (c - 1))) by lia. simpl.
      f_equal.
      * destruct (decide _), (decide _); try done; lia.
      * do 4 f_equal. lia.
Qed.

(** The loop of [write] calls on an unbounded array writer. *)
Lemma write_values_unbounded (a : loc) (values : list pyval) :
  ∀ (s : state),
    heap s !! a = Some (ArrayWriterObj PyNone) →
    write_values a values s =
    (Ok tt, {| sink := sink s ++ (encode <$> values); heap := heap s |}).
Proof.
  induction values as [|v rest IH]; intros s Ha; simpl.
  - rewrite app_nil_r. now destruct s.
  - rewrite (bind_ok _ _ _ _ _ (array_write_has_room a PyNone v s Ha I)).
    simpl. rewrite insert_id by done.
    rewrite IH by done. simpl. now rewrite <- app_assoc.
Qed.

(** X1. [with CBORWriter.array(n) as a: for v in values: a.write(v)] for
    a declared count [n]: the header and the first [n] values reach the
    encoder and nothing else does, no terminator included. The block
    returns normally when exactly [n] values were written, raises the
    insufficient-values error at exit when there were fewer, and the
    count-exceeded error of the [n+1]-th [write] when there were more. *)
Theorem definite_array_block (n : Z) (values : list pyval) (s : state) :
  0 ≤ n →
  let r := with_call (CBORWriter.array (PyInt n))
             (λ a, write_values a values) s in
  sink (final r) =
    sink s ++ write_encode_length 0x80 (PyInt n)
              :: (encode <$> take (Z.to_nat n) values) ∧
  outcome r =
    block_outcome (Z.of_nat (length values)) n
      insufficient_message CBORArrayWriter.exceeded_message.
Proof.
  intros Hn r. subst r. unfold with_call, CBORWriter.array.
  assert (Hvalid : ¬ invalid_length (PyInt n)) by (simpl; lia).
  rewrite (bind_ok _ _ _ _ _ (array_context_mgr_valid (PyInt n) s Hvalid)).
  unfold with_. rewrite enter_header. cbn [cm_writer cm_major_tag cm_length].
  rewrite (write_values_bounded _ values n); [|done|apply lookup_insert_eq].
  cbn [sink heap header is_None].
  rewrite (exit_definite _ (Z.max 0 (n - Z.of_nat (length values))));
    [|done|unfold capacity_at; simpl; now rewrite lookup_insert_eq].
  unfold block_outcome.
  destruct (Z.of_nat (length values) ?= n) eqn:E.
  - apply Z.compare_eq in E.
    rewrite decide_True by lia.
    replace (0 <? _) with false by (symmetry; apply Z.ltb_ge; lia).
    simpl. split; [now rewrite <- app_assoc | done].
  - change (Z.of_nat (length values) < n) in E.
    rewrite decide_True by lia.
    replace (0 <? _) with true by (symmetry; apply Z.ltb_lt; lia).
    simpl. split; [now rewrite <- app_assoc | done].
  - apply Z.compare_gt_iff in E.
    rewrite decide_False by lia.
    replace (0 <? _) with false by (symmetry; apply Z.ltb_ge; lia).
    simpl. split; [now rewrite <- app_assoc | done].
Qed.

Lemma definite_array_block_witness :
  let r := with_call (CBORWriter.array (PyInt 2))
             (λ a, write_values a [PyInt 7; PyStr "x"; PyNone]) empty_state in
  sink (final r) =
    [] ++ write_encode_length 0x80 (PyInt 2)
          :: (encode <$> take (Z.to_nat 2) [PyInt 7; PyStr "x"; PyNone]) ∧
  outcome r =
    block_outcome (Z.of_nat (length [PyInt 7; PyStr "x"; PyNone])) 2
      insufficient_message CBORArrayWriter.exceeded_message.
Proof.
  apply (definite_array_block 2 [PyInt 7; PyStr "x"; PyNone] empty_state). lia.
Defined.

(** X2. [with CBORWriter.array() as a: for v in values: a.write(v)], no
    length given: whatever the number of values the block returns
    normally, and the encoder is asked for the indefinite-length start,
    every value in order, and one break. *)
Theorem indefinite_array_block (values : list pyval) (s : state) :
  let r := with_call (CBORWriter.array PyNone)
             (λ a, write_values a values) s in
  outcome r = Ok tt ∧
  sink (final r) =
    sink s ++ encode_indefinite 0x80 :: (encode <$> values) ++ [encode_break].
Proof.
  intros r. subst r. unfold with_call, CBORWriter.array.
  rewrite (bind_ok _ _ _ _ _ (array_context_mgr_valid PyNone s (λ H, H))).
  unfold with_. rewrite enter_header. cbn [cm_writer cm_major_tag cm_length].
  rewrite write_values_unbounded by apply lookup_insert_eq.
  rewrite exit_indefinite by done. simpl.
  split; [done|]. now rewrite <- !app_assoc.
Qed.

(** The loop of [write] calls on a bounded map writer. *)
Lemma write_pairs_bounded (m : loc) (pairs : list (pyval * pyval)) :
  ∀ (c : Z) (s : state),
    0 ≤ c →
    heap s !! m = Some (MapWriterObj (PyInt c)) →
    write_pairs m pairs s =
    ((if decide (Z.of_nat (length pairs) ≤ c) then Ok tt
      else Raise (CBORWriterError CBORMapWriter.exceeded_message)),
     {| sink := sink s ++ flat_pairs (take (Z.to_nat c) pairs);
        heap := <[m := MapWriterObj
                         (PyInt (Z.max 0 (c - Z.of_nat (length pairs))))]>
                  (heap s) |}).
Proof.
  induction pairs as [|[k v] rest IH]; intros c s Hc Hm; simpl.
  - rewrite take_nil, Z.sub_0_r, Z.max_r by lia. simpl.
    rewrite app_nil_r, insert_id by done. rewrite decide_True by lia.
    now destruct s.
  - destruct (decide (c = 0)) as [->|Hpos].
    + rewrite (bind_raise _ _ _ _ _ (map_write_exhausted m k v s Hm)).
      rewrite decide_False by lia. simpl.
      rewrite app_nil_r, Z.max_l by lia. rewrite insert_id by done.
      now destruct s.
    + assert (Hroom : has_room (PyInt c)) by (simpl; lia).
      rewrite (bind_ok _ _ _ _ _ (map_write_has_room m _ k v s Hm Hroom)).
      rewrite (IH (c - 1)); [|lia|apply lookup_insert_eq]. simpl.
      rewrite insert_insert_eq, <- app_assoc.
      replace (Z.to_nat c) with (S (Z.to_nat (c - 1))) by lia. simpl.
      f_equal.
      * destruct (decide _), (decide _); try done; lia.
      * do 4 f_equal. lia.
Qed.

(** The loop of [write] calls on an unbounded map writer. *)
Lemma write_pairs_unbounded (m : loc) (pairs : list (pyval * pyval)) :
  ∀ (s : state),
    heap s !! m = Some (MapWriterObj PyNone) →
    write_pairs m pairs s =
    (Ok tt, {| sink := sink s ++ flat_pairs pairs; heap := heap s |}).
Proof.
  induction pairs as [|[k v] rest IH]; intros s Hm; simpl.
  - rewrite app_nil_r. now destruct s.
  - rewrite (bind_ok _ _ _ _ _ (map_write_has_room m PyNone k v s Hm I)).
    simpl. rewrite insert_id by done.
    rewrite IH by done. simpl. now rewrite <- app_assoc.
Qed.

(** X3. [with CBORWriter.map(n) as m: for k, v in pairs: m.write(k, v)]
    for a declared count [n]: the header and the keys and values of the
    first [n] pairs reach the encoder, and nothing else. The block returns
    normally when exactly [n] pairs were written, raises the
    insufficient-values error at exit when there were fewer, and the
    count-exceeded error of the [n+1]-th [write] when there were more. *)
Theorem definite_map_block
    (n : Z) (pairs : list (pyval * pyval)) (s : state) :
  0 ≤ n →
  let r := with_call (CBORWriter.map (PyInt n))
             (λ m, write_pairs m pairs) s in
  sink (final r) =
    sink s ++ write_encode_length 0xA0 (PyInt n)
              :: flat_pairs (take (Z.to_nat n) pairs) ∧
  outcome r =
    block_outcome (Z.of_nat (length pairs)) n
      insufficient_message CBORMapWriter.exceeded_message.
Proof.
  intros Hn r. subst r. unfold with_call, CBORWriter.map.
  assert (Hvalid : ¬ invalid_length (PyInt n)) by (simpl; lia).
  rewrite (bind_ok _ _ _ _ _ (map_context_mgr_valid (PyInt n) s Hvalid)).
  unfold with_. rewrite enter_header. cbn [cm_writer cm_major_tag cm_length].
  rewrite (write_pairs_bounded _ pairs n); [|done|apply lookup_insert_eq].
  cbn [sink heap header is_None].
  rewrite (exit_definite _ (Z.max 0 (n - Z.of_nat (length pairs))));
    [|done|unfold capacity_at; simpl; now rewrite lookup_insert_eq].
  unfold block_outcome.
  destruct (Z.of_nat (length pairs) ?= n) eqn:E.
  - apply Z.compare_eq in E.
    rewrite decide_True by lia.
    replace (0 <? _) with false by (symmetry; apply Z.ltb_ge; lia).
    simpl. split; [now rewrite <- app_assoc | done].
  - change (Z.of_nat (length pairs) < n) in E.
    rewrite decide_True by lia.
    replace (0 <? _) with true by (symmetry; apply Z.ltb_lt; lia).
    simpl. split; [now rewrite <- app_assoc | done].
  - apply Z.compare_gt_iff in E.
    rewrite decide_False by lia.
    replace (0 <? _) with false by (symmetry; apply Z.ltb_ge; lia).
    simpl. split; [now rewrite <- app_assoc | done].
Qed.

Lemma definite_map_block_witness :
  let pairs := [(PyStr "a", PyInt 1)] in
  let r := with_call (CBORWriter.map (PyInt 2))
             (λ m, write_pairs m pairs) empty_state in
  sink (final r) =
    [] ++ write_encode_length 0xA0 (PyInt 2)
          :: flat_pairs (take (Z.to_nat 2) pairs) ∧
  outcome r =
    block_outcome (Z.of_nat (length pairs)) 2
      insufficient_message CBORMapWriter.exceeded_message.
Proof.
  intros pairs. apply (definite_map_block 2 pairs empty_state). lia.
Defined.

(** X4. [with CBORWriter.map() as m: for k, v in pairs: m.write(k, v)],
    no length given: whatever the number of pairs the block returns
    normally, and the encoder is asked for the indefinite-length start,
    each key followed by its value in the order written, and one break. *)
Theorem indefinite_map_block (pairs : list (pyval * pyval)) (s : state) :
  let r := with_call (CBORWriter.map PyNone)
             (λ m, write_pairs m pairs) s in
  outcome r = Ok tt ∧
  sink (final r) =
    sink s ++ encode_indefinite 0xA0 :: flat_pairs pairs ++ [encode_break].
Proof.
  intros r. subst r. unfold with_call, CBORWriter.map.
  rewrite (bind_ok _ _ _ _ _ (map_context_mgr_valid PyNone s (λ H, H))).
  unfold with_. rewrite enter_header. cbn [cm_writer cm_major_tag cm_length].
  rewrite write_pairs_unbounded by apply lookup_insert_eq.
  rewrite exit_indefinite by done. simpl.
  split; [done|]. now rewrite <- !app_assoc.
Qed.

(** ** Which exception leaves the block *)

(** X5. When the body of a definite scope raises, [__exit__] still checks
    the counter: with capacity left, the insufficient-values error is the
    exception that leaves the [with] block, in place of the body's own;
    with the counter at zero the body's exception leaves it. Nothing is
    written at exit either way. *)
Theorem exit_error_takes_over
    {A : Type} (cm : ContextManager) (body : loc → M A)
    (e : exn) (c : Z) (s : state) :
  cm_length cm ≠ PyNone →
  let body_end := body (cm_writer cm) (final (__enter__ cm s)) in
  outcome body_end = Raise e →
  capacity_at (final body_end) (cm_writer cm) = Some (PyInt c) →
  with_ cm body s =
  ((if 0 <? c then Raise (CBORWriterError insufficient_message) else Raise e),
   final body_end).
Proof.
  intros Hlen body_end Hraise Hcap. subst body_end.
  unfold with_. rewrite enter_header in *. simpl in *.
  destruct (body _ _) as [r s2]. simpl in *. subst r.
  rewrite (exit_definite cm c) by done.
  now destruct (0 <? c).
Qed.

Lemma exit_error_takes_over_witness :
  let cm := {| cm_major_tag := 0x80; cm_length := PyInt 3; cm_writer := 0%nat |} in
  let s := {| sink := []; heap := {[ 0%nat := ArrayWriterObj (PyInt 3) ]} |} in
  let body := λ a, CBORArrayWriter.write a (PyInt 1) ;;;
                   _ <- CBORArrayWriter.array a (PyInt (-1)) ;; ret tt in
  with_ cm body s =
  (Raise (CBORWriterError insufficient_message),
   final (body 0%nat (final (__enter__ cm s)))).
Proof.
  intros cm s body.
  apply (exit_error_takes_over cm body (ValueError length_message) 1 s);
    [discriminate | reflexivity | reflexivity].
Defined.

(** ** The sink only grows *)

Section Grows.
Context {A B : Type}.






End Grows.












(** ** What a writer remains *)

Lemma same_mode_refl (o : object) : same_mode o o.
Proof. now destruct o. Qed.

Lemma same_mode_trans (o1 o2 o3 : object) :
  same_mode o1 o2 → same_mode o2 o3 → same_mode o1 o3.
Proof. destruct o1, o2, o3; simpl; try done; congruence. Qed.

Lemma py_sub1_not_None (c c' : pyval) :
  py_sub1 c = Some c' → is_None c' = false.
Proof. destruct c; simpl; intros H; now simplify_eq. Qed.

Lemma array_commit_mode (w : loc) (c : pyval) (s : state) :
  heap s !! w = Some (ArrayWriterObj c) →
  ∃ c', heap (final (CBORArrayWriter._commit_element w s)) !! w =
          Some (ArrayWriterObj c') ∧
        is_None c = is_None c'.
Proof.
  intros Hw.
  unfold CBORArrayWriter._commit_element, bind, CBORArrayWriter.capacity, lift_op.
  rewrite Hw; simpl.
  destruct (is_None c) eqn:Hc; simpl; [now exists c|].
  destruct (py_le0 c) as [[]|]; simpl; try (now exists c).
  destruct (py_sub1 c) as [c'|] eqn:Hsub; simpl; [|now exists c].
  exists c'. rewrite lookup_insert_eq.
  split; [done|]. now rewrite (py_sub1_not_None c c').
Qed.

Lemma map_commit_mode (w : loc) (c : pyval) (s : state) :
  heap s !! w = Some (MapWriterObj c) →
  ∃ c', heap (final (CBORMapWriter._commit_element w s)) !! w =
          Some (MapWriterObj c') ∧
        is_None c = is_None c'.
Proof.
  intros Hw.
  unfold CBORMapWriter._commit_element, bind, CBORMapWriter.capacity, lift_op.
  rewrite Hw; simpl.
  destruct (is_None c) eqn:Hc; simpl; [now exists c|].
  destruct (py_not c); simpl; try (now exists c).
  destruct (py_sub1 c) as [c'|] eqn:Hsub; simpl; [|now exists c].
  exists c'. rewrite lookup_insert_eq.
  split; [done|]. now rewrite (py_sub1_not_None c c').
Qed.

Lemma bind_after {A B} (c : M A) (k : A → M B) (w : loc) (o : object)
    (s : state) :
  heap (final (c s)) !! w = Some o →
  (∀ a, keeps w o (k a)) →
  heap (final (bind c k s)) !! w = Some o.
Proof.
  intros Hc Hk. unfold bind, final in *.
  destruct (c s) as [[a|e] s1]; simpl in *; [now apply Hk | done].
Qed.

Lemma run_op_mode (call : op) (w : loc) (o : object) (s : state) :
  heap s !! w = Some o →
  ∃ o', heap (final (run_op call s)) !! w = Some o' ∧ same_mode o o'.
Proof.
  intros Hw. destruct (commits_on o w call) eqn:Hcall.
  - destruct o as [|c|c]; [done|..].
    + destruct (array_commit_mode w c s Hw) as (c' & Hc' & Hmode).
      exists (ArrayWriterObj c'). split; [|done].
      destruct call; simplify_eq/=; case_bool_decide; simplify_eq;
        rewrite ?final_ignore;
        (apply bind_after; [done | intros; keeps_tac]).
    + destruct (map_commit_mode w c s Hw) as (c' & Hc' & Hmode).
      exists (MapWriterObj c'). split; [|done].
      destruct call; simplify_eq/=; case_bool_decide; simplify_eq;
        rewrite ?final_ignore;
        (apply bind_after; [done | intros; keeps_tac]).
  - exists o. split; [now apply run_op_other | apply same_mode_refl].
Qed.

(** X7. A writer is for life what it was created as: after any sequence
    of calls the object is still there, of the same class, and unbounded
    exactly when it was unbounded at the start. No call turns a counted
    scope into an open-ended one or back, and none removes a writer. *)
Theorem writer_mode_is_fixed (ops : list op) :
  ∀ (w : loc) (o : object) (s : state),
    heap s !! w = Some o →
    ∃ o', heap (run_ops ops s) !! w = Some o' ∧ same_mode o o'.
Proof.
  induction ops as [|call ops IH]; intros w o s Hw; simpl.
  - exists o. split; [done | apply same_mode_refl].
  - destruct (run_op_mode call w o s Hw) as (o1 & Hw1 & Hmode1).
    destruct (IH w o1 _ Hw1) as (o2 & Hw2 & Hmode2).
    exists o2. split; [done | now apply same_mode_trans with o1].
Qed.

Lemma writer_mode_is_fixed_witness :
  let s := {| sink := []; heap := {[ 3%nat := MapWriterObj (PyInt 1) ]} |} in
  let ops := [Map_write 3%nat (PyStr "a") PyNone; Map_map 3%nat (PyStr "b") PyNone;
              Array_write 3%nat (PyInt 0)] in
  ∃ o', heap (run_ops ops s) !! 3%nat = Some o' ∧
        same_mode (MapWriterObj (PyInt 1)) o'.
Proof.
  intros s ops.
  apply (writer_mode_is_fixed ops 3%nat (MapWriterObj (PyInt 1)) s).
  reflexivity.
Defined.

(** X8. Calls leave every other writer alone: a sequence of calls none of
    which is a [write]/[array]/[map] of [w]'s own class made on [w]
    (calls on other writers, on [CBORWriter], scope entries and exits)
    ends with [w] holding exactly the capacity it had. *)
Theorem other_writers_untouched
    (ops : list op) (w : loc) (o : object) (s : state) :
  heap s !! w = Some o →
  count_commits o w ops = 0 →
  heap (run_ops ops s) !! w = Some o.
Proof. intros Hw Hcount. now apply run_ops_other. Qed.

Lemma other_writers_untouched_witness :
  let s := {| sink := [];
              heap := {[ 0%nat := ArrayWriterObj (PyInt 2);
                         1%nat := ArrayWriterObj (PyInt 5) ]} |} in
  let ops := [Array_write 1%nat (PyInt 7); Array_array 1%nat (PyInt 9);
              Writer_map PyNone;
              Exit {| cm_major_tag := 0x80; cm_length := PyInt 2;
                      cm_writer := 0%nat |}] in
  heap (run_ops ops s) !! 0%nat = Some (ArrayWriterObj (PyInt 2)).
Proof.
  intros s ops.
  apply (other_writers_untouched ops 0%nat (ArrayWriterObj (PyInt 2)) s);
    reflexivity.
Defined.

(** ** Opening a scope *)

Lemma invalid_length_dec (length : pyval) :
  invalid_length length ∨ ¬ invalid_length length.
Proof. destruct length as [| |z| |]; simpl; try tauto. lia. Qed.

(** X9. [CBORWriter.array(length)] and [CBORWriter.map(length)], for any
    [length] at all: the call writes nothing and changes no existing
    writer; the only exception it can raise is [ValueError] (a string or a
    float never gets as far as the comparison with zero), and it does so
    exactly for a length that is neither [None] nor a non-negative
    integral value; otherwise it returns a context manager with the tag
    0x80 (array) or 0xA0 (map) and that length, over a writer that did not
    exist before and whose capacity is the length. *)
Theorem opening_a_scope (length : pyval) (s : state) :
  opened_or_rejected 0x80 length (ArrayWriterObj length) s
    (CBORWriter.array length s) ∧
  opened_or_rejected 0xA0 length (MapWriterObj length) s
    (CBORWriter.map length s).
Proof.
  unfold opened_or_rejected, CBORWriter.array, CBORWriter.map.
  destruct (invalid_length_dec length) as [Hbad|Hgood].
  - rewrite array_context_mgr_invalid, map_context_mgr_invalid by done. simpl.
    split; (split; [done|]); (split; [|now left]);
      intros w o Hw; (rewrite lookup_insert_ne; [done|]);
      now apply fresh_not_live with o.
  - rewrite array_context_mgr_valid, map_context_mgr_valid by done. simpl.
    split; (split; [done|]);
      (split; [intros w o Hw; (rewrite lookup_insert_ne; [done|]);
               now apply fresh_not_live with o|]);
      right; (split; [done|]); eexists; (split; [reflexivity|]); simpl;
      repeat split; first [apply fresh_unused | apply lookup_insert_eq].
Qed.

(** ** Counters below zero *)

Lemma map_write_nonzero (w : loc) (c : Z) (k v : pyval) (s : state) :
  heap s !! w = Some (MapWriterObj (PyInt c)) → c ≠ 0 →
  CBORMapWriter.write w k v s =
  (Ok tt, {| sink := sink s ++ [encode k; encode v];
             heap := <[w := MapWriterObj (PyInt (c - 1))]> (heap s) |}).
Proof.
  intros Hw Hc. unfold CBORMapWriter.write.
  rewrite (bind_ok _ _ _ _ _ (map_commit_room w s c Hw Hc)).
  unfold bind, emit; simpl. now rewrite <- app_assoc.
Qed.

(** X10. The two classes guard the counter differently: the array writer
    refuses a commit when [capacity <= 0], the map writer only when
    [capacity] is falsy, that is exactly zero. On writers holding a
    negative capacity (the classes can be constructed directly, without
    the length check of [array]/[map]) an array [write] raises and writes
    nothing, while a loop of map [write] calls goes through for any number
    of pairs, each pair reaching the encoder and the counter moving
    further below zero. *)
Theorem negative_capacity (w : loc) (c : Z) (v : pyval)
    (pairs : list (pyval * pyval)) (s : state) :
  c < 0 →
  (heap s !! w = Some (ArrayWriterObj (PyInt c)) →
   CBORArrayWriter.write w v s =
   (Raise (CBORWriterError CBORArrayWriter.exceeded_message), s)) ∧
  (heap s !! w = Some (MapWriterObj (PyInt c)) →
   write_pairs w pairs s =
   (Ok tt, {| sink := sink s ++ flat_pairs pairs;
              heap := <[w := MapWriterObj
                               (PyInt (c - Z.of_nat (length pairs)))]>
                        (heap s) |})).
Proof.
  intros Hc. split.
  - intros Hw. apply bind_raise, array_commit_exhausted with c; [done | lia].
  - revert c s Hc. induction pairs as [|[k v'] rest IH]; intros c s Hc Hw; simpl.
    + rewrite app_nil_r, Z.sub_0_r, insert_id by done. now destruct s.
    + rewrite (bind_ok _ _ _ _ _ (map_write_nonzero w c k v' s Hw ltac:(lia))).
      rewrite (IH (c - 1)); [|lia|apply lookup_insert_eq]. simpl.
      rewrite insert_insert_eq, <- !app_assoc. simpl.
      do 5 f_equal. lia.
Qed.

Lemma negative_capacity_witness :
  let pairs := [(PyStr "a", PyInt 1); (PyStr "b", PyInt 2)] in
  let in_array := {| sink := []; heap := {[ 0%nat := ArrayWriterObj (PyInt (-1)) ]} |} in
  let in_map := {| sink := []; heap := {[ 0%nat := MapWriterObj (PyInt (-1)) ]} |} in
  CBORArrayWriter.write 0%nat (PyInt 5) in_array =
    (Raise (CBORWriterError CBORArrayWriter.exceeded_message), in_array) ∧
  write_pairs 0%nat pairs in_map =
    (Ok tt, {| sink := [] ++ flat_pairs pairs;
               heap := <[0%nat := MapWriterObj (PyInt (-1 - 2))]>
                         (heap in_map) |}).
Proof.
  intros pairs in_array in_map. split.
  - apply (negative_capacity 0%nat (-1) (PyInt 5) [] in_array);
      [lia | reflexivity].
  - apply (negative_capacity 0%nat (-1) PyNone pairs in_map);
      [lia | reflexivity].
Defined.

(** ** The traversal of the tests *)

Lemma value_ind' (P : value → Prop) :
  (∀ x, P (Scalar x)) →
  (∀ items, Forall P items → P (Tuple items)) →
  (∀ items, Forall P items → P (List_ items)) →
  (∀ items, Forall (λ kx, P kx.2) items → P (FrozenDict items)) →
  (∀ items, Forall (λ kx, P kx.2) items → P (Dict items)) →
  ∀ v, P v.
Proof.
  intros HS HT HL HF HD. fix IH 1. intros [x|items|items|items|items].
  - apply HS.
  - apply HT. induction items as [|i rest IHrest]; constructor;
      [apply IH | exact IHrest].
  - apply HL. induction items as [|i rest IHrest]; constructor;
      [apply IH | exact IHrest].
  - apply HF. induction items as [|[k x] rest IHrest]; constructor;
      [apply IH | exact IHrest].
  - apply HD. induction items as [|[k x] rest IHrest]; constructor;
      [apply IH | exact IHrest].
Qed.

Lemma insert_item_fmap {A B} (f : A → B) (k : string) (x : A)
    (l : list (string * A)) :
  insert_item k (f x) ((λ kx, (kx.1, f kx.2)) <$> l) =
  (λ kx, (kx.1, f kx.2)) <$> insert_item k x l.
Proof.
  induction l as [|[k' x'] rest IH]; [done|].
  rewrite fmap_cons. cbn [insert_item fst snd].
  destruct (String.leb k k'); [done|].
  rewrite fmap_cons. cbn [fst snd]. f_equal. apply IH.
Qed.

Lemma sorted_items_fmap {A B} (f : A → B) (l : list (string * A)) :
  sorted_items ((λ kx, (kx.1, f kx.2)) <$> l) =
  (λ kx, (kx.1, f kx.2)) <$> sorted_items l.
Proof.
  induction l as [|[k x] rest IH]; [done|].
  rewrite fmap_cons. cbn [sorted_items fst snd].
  rewrite IH. apply (insert_item_fmap f k x).
Qed.

Lemma insert_item_length {A} (k : string) (x : A) (l : list (string * A)) :
  length (insert_item k x l) = S (length l).
Proof.
  induction l as [|[k' x'] rest IH]; simpl; [done|].
  destruct (String.leb k k'); simpl; [done|]. now rewrite IH.
Qed.

Lemma sorted_items_length {A} (l : list (string * A)) :
  length (sorted_items l) = length l.
Proof.
  induction l as [|[k x] rest IH]; simpl; [done|].
  now rewrite insert_item_length, IH.
Qed.

Lemma insert_item_Forall {A} (Q : string * A → Prop) (k : string) (x : A)
    (l : list (string * A)) :
  Q (k, x) → Forall Q l → Forall Q (insert_item k x l).
Proof.
  intros Hx Hl. induction Hl as [|[k' x'] rest Hy Hrest IH]; simpl.
  - now constructor.
  - destruct (String.leb k k'); repeat constructor; done.
Qed.

Lemma sorted_items_Forall {A} (Q : string * A → Prop) (l : list (string * A)) :
  Forall Q l → Forall Q (sorted_items l).
Proof.
  induction 1 as [|[k x] rest Hx Hrest IH]; simpl; [constructor|].
  now apply insert_item_Forall.
Qed.

Lemma for_items_fmap {A B} (f : A → B) (l : list (string * A))
    (body : string → B → M unit) (s : state) :
  for_items ((λ kx, (kx.1, f kx.2)) <$> l) body s =
  for_items l (λ k x, body k (f x)) s.
Proof.
  revert s. induction l as [|[k x] rest IH]; intros s; [done|].
  rewrite fmap_cons. cbn [for_items fst snd]. unfold bind.
  destruct (body k (f x) s) as [[[]|e] s1]; [|done].
  apply IH.
Qed.

Lemma with_ext {A} (cm : ContextManager) (body body' : loc → M A) (s : state) :
  (∀ w s', body w s' = body' w s') → with_ cm body s = with_ cm body' s.
Proof.
  intros H. unfold with_.
  destruct (__enter__ cm s) as [[w|e] s1]; [|done]. now rewrite H.
Qed.

Lemma state_eta (s : state) : {| sink := sink s; heap := heap s |} = s.
Proof. now destruct s. Qed.

Lemma handle_array_ready (wr : handle) (cap length : pyval) (s : state) :
  ready wr cap s →
  handle_array wr length s =
  _CBORWriterBase._array_context_mgr length
    {| sink := sink s ++ key_calls wr;
       heap := committed_heap wr cap (heap s) |}.
Proof.
  destruct wr as [|a|m key]; simpl.
  - intros _. now rewrite app_nil_r, state_eta.
  - intros [Hw Hroom]. rewrite (array_array_unfold a cap) by done.
    now rewrite app_nil_r.
  - intros [Hw Hroom]. now rewrite (map_array_unfold m cap) by done.
Qed.

Lemma handle_map_ready (wr : handle) (cap length : pyval) (s : state) :
  ready wr cap s →
  handle_map wr length s =
  _CBORWriterBase._map_context_mgr length
    {| sink := sink s ++ key_calls wr;
       heap := committed_heap wr cap (heap s) |}.
Proof.
  destruct wr as [|a|m key]; simpl.
  - intros _. now rewrite app_nil_r, state_eta.
  - intros [Hw Hroom]. rewrite (array_map_unfold a cap) by done.
    now rewrite app_nil_r.
  - intros [Hw Hroom]. now rewrite (map_map_unfold m cap) by done.
Qed.

Lemma handle_write_ready (wr : handle) (cap x : pyval) (s : state) :
  ready wr cap s →
  handle_write wr x s =
  (Ok tt, {| sink := sink s ++ key_calls wr ++ [encode x];
             heap := committed_heap wr cap (heap s) |}).
Proof.
  destruct wr as [|a|m key]; simpl.
  - done.
  - intros [Hw Hroom]. now apply array_write_has_room.
  - intros [Hw Hroom]. now apply map_write_has_room.
Qed.

(** A whole [with] block over a new writer, given what its body does. *)
Lemma block_runs (t : Z) (length : pyval) (mk : pyval → object)
    (body : loc → M unit) (inner : list call) (k : nat) (s : state) :
  let l := fresh (dom (heap s)) in
  (∀ c, capacity_of (mk c) = Some c) →
  length = PyNone ∨ length = PyInt (Z.of_nat k) →
  (∀ s1, heap s1 !! l = Some (mk length) →
         ∃ s2, body l s1 = (Ok tt, s2) ∧
               sink s2 = sink s1 ++ inner ∧
               <[l := mk (spend length k)]> (heap s1) ⊆ heap s2) →
  ∃ s', with_ {| cm_major_tag := t; cm_length := length; cm_writer := l |}
          body {| sink := sink s; heap := <[l := mk length]> (heap s) |} =
        (Ok tt, s') ∧
        sink s' = sink s ++ header t length :: inner ++ closing length ∧
        heap s ⊆ heap s'.
Proof.
  intros l Hmk Hlen Hbody. unfold with_. rewrite enter_header.
  cbn [cm_writer cm_major_tag cm_length sink heap].
  edestruct Hbody as (s2 & Hrun & Hsink & Hheap);
    [|rewrite Hrun]; [simpl; apply lookup_insert_eq|].
  simpl in Hsink, Hheap. rewrite insert_insert_eq in Hheap.
  assert (Hl : heap s2 !! l = Some (mk (spend length k))).
  { eapply lookup_weaken; [apply lookup_insert_eq | exact Hheap]. }
  assert (Hsub : heap s ⊆ heap s2).
  { etrans; [|exact Hheap]. apply insert_subseteq, fresh_unused. }
  destruct Hlen as [->| ->].
  - rewrite exit_indefinite by done.
    eexists. split; [reflexivity|]. simpl. split; [|done].
    rewrite Hsink, <- !app_assoc. done.
  - rewrite (exit_definite _ 0);
      [|done|unfold capacity_at; cbn [cm_writer]; rewrite Hl; simpl;
             rewrite Hmk; do 2 f_equal; lia].
    simpl. eexists. split; [reflexivity|]. split; [|done].
    rewrite Hsink, <- !app_assoc. simpl. now rewrite app_nil_r.
Qed.

Lemma spend_zero (cap : pyval) : spend cap 0 = cap.
Proof. destruct cap; simpl; try done. f_equal. lia. Qed.

Lemma spend_committed (cap : pyval) (k : nat) :
  spend (committed cap) k = spend cap (S k).
Proof. destruct cap; simpl; try done. f_equal. lia. Qed.

Lemma fits_room (cap : pyval) (k : nat) : fits cap (S k) → has_room cap.
Proof. destruct cap; simpl; try done. lia. Qed.

Lemma fits_committed (cap : pyval) (k : nat) :
  fits cap (S k) → fits (committed cap) k.
Proof. destruct cap; simpl; try done. lia. Qed.

(** The loop over the members of a sequence, in an array scope. *)
Lemma members_loop (a : loc) (items : list value) :
  Forall encodes_well items →
  ∀ cap s,
    heap s !! a = Some (ArrayWriterObj cap) →
    fits cap (length items) →
    ∃ s', for_each items (λ i, _encode_value (OnArray a) i) s = (Ok tt, s') ∧
          sink s' = sink s ++ flat_map serialize items ∧
          <[a := ArrayWriterObj (spend cap (length items))]> (heap s) ⊆ heap s'.
Proof.
  induction 1 as [|i rest Hi Hrest IH]; intros cap s Ha Hfits.
  - exists s. split; [done|]. simpl. rewrite app_nil_r, spend_zero.
    split; [done|]. now rewrite insert_id.
  - destruct (Hi (OnArray a) cap s) as (s1 & Hrun1 & Hsink1 & Hheap1).
    { split; [done | now apply fits_room with (length rest)]. }
    simpl in Hsink1, Hheap1.
    destruct (IH (committed cap) s1) as (s2 & Hrun2 & Hsink2 & Hheap2).
    { eapply lookup_weaken; [apply lookup_insert_eq | exact Hheap1]. }
    { now apply fits_committed. }
    exists s2. split; [|split].
    + change (for_each (i :: rest) ?body) with (body i ;;; for_each rest body).
      now rewrite (bind_ok _ _ _ _ _ Hrun1).
    + rewrite Hsink2, Hsink1. simpl. now rewrite <- app_assoc.
    + rewrite spend_committed in Hheap2. etrans; [|exact Hheap2].
      rewrite <- (insert_insert_eq (heap s) a _ (ArrayWriterObj (committed cap))).
      now apply insert_mono.
Qed.

(** The loop over the entries of a mapping, in a map scope. *)
Lemma entries_loop (m : loc) (items : list (string * value)) :
  Forall (λ kx, encodes_well kx.2) items →
  ∀ cap s,
    heap s !! m = Some (MapWriterObj cap) →
    fits cap (length items) →
    ∃ s', for_items items (λ k x, _encode_value (OnMap m (PyStr k)) x) s =
            (Ok tt, s') ∧
          sink s' = sink s ++
            flat_map entry_calls ((λ kx, (kx.1, serialize kx.2)) <$> items) ∧
          <[m := MapWriterObj (spend cap (length items))]> (heap s) ⊆ heap s'.
Proof.
  induction 1 as [|[k x] rest Hx Hrest IH]; intros cap s Hm Hfits.
  - exists s. split; [done|]. simpl. rewrite app_nil_r, spend_zero.
    split; [done|]. now rewrite insert_id.
  - destruct (Hx (OnMap m (PyStr k)) cap s) as (s1 & Hrun1 & Hsink1 & Hheap1).
    { split; [done | now apply fits_room with (length rest)]. }
    simpl in Hsink1, Hheap1.
    destruct (IH (committed cap) s1) as (s2 & Hrun2 & Hsink2 & Hheap2).
    { eapply lookup_weaken; [apply lookup_insert_eq | exact Hheap1]. }
    { now apply fits_committed. }
    exists s2. split; [|split].
    + change (for_items ((k, x) :: rest) ?body)
        with (body k x ;;; for_items rest body).
      now rewrite (bind_ok _ _ _ _ _ Hrun1).
    + rewrite Hsink2, Hsink1, fmap_cons. simpl. now rewrite <- app_assoc.
    + rewrite spend_committed in Hheap2. etrans; [|exact Hheap2].
      rewrite <- (insert_insert_eq (heap s) m _ (MapWriterObj (committed cap))).
      now apply insert_mono.
Qed.

Lemma fits_length (k : nat) : fits (PyInt (Z.of_nat k)) k.
Proof. simpl. lia. Qed.

Lemma valid_count (k : nat) : ¬ invalid_length (PyInt (Z.of_nat k)).
Proof. simpl. lia. Qed.

Lemma valid_None : ¬ invalid_length PyNone.
Proof. now simpl. Qed.

(** A sequence, as a definite or an indefinite array. *)
Lemma sequence_encodes_well (wr : handle) (cap length : pyval)
    (items : list value) (s : state) :
  Forall encodes_well items →
  length = PyNone ∨ length = PyInt (Z.of_nat (List.length items)) →
  ready wr cap s →
  ∃ s', with_call (handle_array wr length)
          (λ a, for_each items (λ i, _encode_value (OnArray a) i)) s =
        (Ok tt, s') ∧
        sink s' = sink s ++ key_calls wr ++
                  header 0x80 length :: flat_map serialize items
                  ++ closing length ∧
        committed_heap wr cap (heap s) ⊆ heap s'.
Proof.
  intros Hitems Hlen Hready.
  assert (Hvalid : ¬ invalid_length length).
  { destruct Hlen as [->| ->]; [apply valid_None | apply valid_count]. }
  unfold with_call.
  rewrite (bind_ok _ _ _ _ _
             (eq_trans (handle_array_ready wr cap length s Hready)
                       (array_context_mgr_valid length _ Hvalid))).
  edestruct (block_runs 0x80 length ArrayWriterObj
               (λ a, for_each items (λ i, _encode_value (OnArray a) i))
               (flat_map serialize items) (List.length items))
    as (s' & Hrun & Hsink & Hheap); [done | exact Hlen | | ].
  - intros s1 Hl. apply members_loop; [done | exact Hl |].
    destruct Hlen as [->| ->]; [done | apply fits_length].
  - exists s'. split; [exact Hrun|]. split; [|exact Hheap].
    rewrite Hsink. simpl. now rewrite <- app_assoc.
Qed.

(** A mapping, as a definite or an indefinite map. *)
Lemma mapping_encodes_well (wr : handle) (cap length : pyval)
    (items : list (string * value)) (s : state) :
  Forall (λ kx, encodes_well kx.2) items →
  length = PyNone ∨ length = PyInt (Z.of_nat (List.length items)) →
  ready wr cap s →
  ∃ s', with_call (handle_map wr length)
          (λ m, for_items
                  (sorted_items
                     ((λ kx, (kx.1, λ wr', _encode_value wr' kx.2)) <$> items))
                  (λ k enc, enc (OnMap m (PyStr k)))) s =
        (Ok tt, s') ∧
        sink s' = sink s ++ key_calls wr ++
                  header 0xA0 length
                  :: flat_map entry_calls
                       (sorted_items ((λ kx, (kx.1, serialize kx.2)) <$> items))
                  ++ closing length ∧
        committed_heap wr cap (heap s) ⊆ heap s'.
Proof.
  intros Hitems Hlen Hready.
  assert (Hvalid : ¬ invalid_length length).
  { destruct Hlen as [->| ->]; [apply valid_None | apply valid_count]. }
  unfold with_call.
  rewrite (bind_ok _ _ _ _ _
             (eq_trans (handle_map_ready wr cap length s Hready)
                       (map_context_mgr_valid length _ Hvalid))).
  edestruct (block_runs 0xA0 length MapWriterObj
               (λ m, for_items
                  (sorted_items
                     ((λ kx, (kx.1, λ wr', _encode_value wr' kx.2)) <$> items))
                  (λ k enc, enc (OnMap m (PyStr k))))
               (flat_map entry_calls
                  (sorted_items ((λ kx, (kx.1, serialize kx.2)) <$> items)))
               (List.length items))
    as (s' & Hrun & Hsink & Hheap); [done | exact Hlen | | ].
  - intros s1 Hl. cbv beta.
    rewrite (sorted_items_fmap (λ x wr', _encode_value wr' x) items).
    rewrite (for_items_fmap (λ x wr', _encode_value wr' x)).
    rewrite (sorted_items_fmap serialize items).
    rewrite <- (sorted_items_length items).
    apply entries_loop; [now apply sorted_items_Forall | exact Hl |].
    rewrite sorted_items_length.
    destruct Hlen as [->| ->]; [done | apply fits_length].
  - exists s'. split; [exact Hrun|]. split; [|exact Hheap].
    rewrite Hsink. simpl. now rewrite <- app_assoc.
Qed.

Lemma all_encode_well (v : value) : encodes_well v.
Proof.
  induction v as [x|items IH|items IH|items IH|items IH] using value_ind';
    intros wr cap s Hready.
  - exists {| sink := sink s ++ key_calls wr ++ [encode x];
              heap := committed_heap wr cap (heap s) |}.
    split; [now apply handle_write_ready | done].
  - destruct (sequence_encodes_well wr cap (PyInt (Z.of_nat (length items)))
                 items s IH (or_intror eq_refl))
      as (s' & Hrun & Hsink & Hheap); [done|].
    exists s'. split; [exact Hrun|]. split; [|exact Hheap].
    rewrite Hsink. simpl. now rewrite app_nil_r.
  - destruct (sequence_encodes_well wr cap PyNone items s IH (or_introl eq_refl))
      as (s' & Hrun & Hsink & Hheap); [done|].
    exists s'. split; [exact Hrun|]. split; [|exact Hheap].
    rewrite Hsink. done.
  - destruct (mapping_encodes_well wr cap (PyInt (Z.of_nat (length items)))
                 items s IH (or_intror eq_refl))
      as (s' & Hrun & Hsink & Hheap); [done|].
    exists s'. split; [exact Hrun|]. split; [|exact Hheap].
    rewrite Hsink. simpl. now rewrite app_nil_r.
  - destruct (mapping_encodes_well wr cap PyNone items s IH (or_introl eq_refl))
      as (s' & Hrun & Hsink & Hheap); [done|].
    exists s'. split; [exact Hrun|]. split; [|exact Hheap].
    rewrite Hsink. done.
Qed.

(** X11. [_encode_value(CBORWriter(...), v)] for any value, however the
    tuples, lists and mappings in it are nested, from any state: it
    returns normally (no scope is ever found short of elements or over
    its count), the encoder receives exactly the calls the structure of
    [v] stands for, and every writer that existed before is unchanged. *)
Theorem encode_value_serializes (v : value) (s : state) :
  ∃ s', _encode_value OnWriter v s = (Ok tt, s') ∧
        sink s' = sink s ++ serialize v ∧
        heap s ⊆ heap s'.
Proof.
  destruct (all_encode_well v OnWriter PyNone s I)
    as (s' & Hrun & Hsink & Hheap).
  exists s'. split; [exact Hrun|]. split; [exact Hsink | exact Hheap].
Qed.

(** X12. Inside an open scope with room, [_encode_value] of any value
    returns normally and costs the scope exactly one commit, whatever the
    size and nesting of the value; in a map scope the key is encoded
    first, then the value. *)
Theorem encode_value_takes_one_slot
    (v : value) (w : loc) (cap key : pyval) (s : state) :
  has_room cap →
  (heap s !! w = Some (ArrayWriterObj cap) →
   ∃ s', _encode_value (OnArray w) v s = (Ok tt, s') ∧
         sink s' = sink s ++ serialize v ∧
         heap s' !! w = Some (ArrayWriterObj (committed cap))) ∧
  (heap s !! w = Some (MapWriterObj cap) →
   ∃ s', _encode_value (OnMap w key) v s = (Ok tt, s') ∧
         sink s' = sink s ++ encode key :: serialize v ∧
         heap s' !! w = Some (MapWriterObj (committed cap))).
Proof.
  intros Hroom. split; intros Hw.
  - destruct (all_encode_well v (OnArray w) cap s) as (s' & Hrun & Hsink & Hheap);
      [done|].
    exists s'. split; [done|]. split; [done|].
    eapply lookup_weaken; [apply lookup_insert_eq | exact Hheap].
  - destruct (all_encode_well v (OnMap w key) cap s) as (s' & Hrun & Hsink & Hheap);
      [done|].
    exists s'. split; [done|]. split; [done|].
    eapply lookup_weaken; [apply lookup_insert_eq | exact Hheap].
Qed.

Lemma encode_value_takes_one_slot_witness :
  let v := Tuple [Scalar (PyInt 2); List_ [Scalar (PyInt 3)]] in
  let in_array := {| sink := []; heap := {[ 0%nat := ArrayWriterObj (PyInt 1) ]} |} in
  let in_map := {| sink := []; heap := {[ 0%nat := MapWriterObj PyNone ]} |} in
  (∃ s', _encode_value (OnArray 0%nat) v in_array = (Ok tt, s') ∧
         sink s' = sink in_array ++ serialize v ∧
         heap s' !! 0%nat = Some (ArrayWriterObj (committed (PyInt 1)))) ∧
  (∃ s', _encode_value (OnMap 0%nat (PyStr "k")) v in_map = (Ok tt, s') ∧
         sink s' = sink in_map ++ encode (PyStr "k") :: serialize v ∧
         heap s' !! 0%nat = Some (MapWriterObj (committed PyNone))).
Proof.
  intros v in_array in_map. split.
  - apply (encode_value_takes_one_slot v 0%nat (PyInt 1) PyNone in_array);
      [simpl; lia | reflexivity].
  - apply (encode_value_takes_one_slot v 0%nat PyNone (PyStr "k") in_map);
      [exact I | reflexivity].
Defined.

(** The cases of [test_writer_container_success], as calls on the
    encoder. *)
Example nested_fixed_arrays :
  sink (final (_encode_value OnWriter
    (Tuple [Scalar (PyInt 1);
            Tuple [Scalar (PyInt 2); Scalar (PyInt 3)];
            Tuple [Scalar (PyInt 4); Scalar (PyInt 5)]]) empty_state)) =
  [write_encode_length 0x80 (PyInt 3); encode (PyInt 1);
   write_encode_length 0x80 (PyInt 2); encode (PyInt 2); encode (PyInt 3);
   write_encode_length 0x80 (PyInt 2); encode (PyInt 4); encode (PyInt 5)].
Proof. vm_compute. reflexivity. Qed.

Example nested_variable_map :
  _encode_value OnWriter
    (Dict [("b", Dict [("c", Scalar (PyInt 2))]); ("a", Scalar (PyInt 1))])
    empty_state =
  (Ok tt,
   {| sink := [encode_indefinite 0xA0;
               encode (PyStr "a"); encode (PyInt 1);
               encode (PyStr "b"); encode_indefinite 0xA0;
               encode (PyStr "c"); encode (PyInt 2);
               encode_break; encode_break];
      heap := {[ 0%nat := MapWriterObj PyNone; 1%nat := MapWriterObj PyNone ]} |}).
Proof. vm_compute. reflexivity. Qed.

Example variable_array_fixed_map :
  sink (final (_encode_value OnWriter
    (List_ [Scalar (PyInt 1); Scalar (PyInt 2);
            FrozenDict [("a", Scalar (PyInt 1))]]) empty_state)) =
  [encode_indefinite 0x80; encode (PyInt 1); encode (PyInt 2);
   write_encode_length 0xA0 (PyInt 1); encode (PyStr "a"); encode (PyInt 1);
   encode_break].
Proof. vm_compute. reflexivity. Qed.

(** ** The order of a mapping's entries *)

(** [k <= k'] on keys, as [sorted] compares them. *)
Lemma leb_spec (k k' : string) :
  String.leb k k' = true ↔ k = k' ∨ String_as_OT.lt k k'.
Proof.
  unfold String.leb. fold (String_as_OT.cmp k k').
  destruct (String_as_OT.cmp k k') eqn:E.
  - apply String_as_OT.cmp_eq in E. tauto.
  - apply String_as_OT.cmp_lt in E. tauto.
  - split; [done|]. intros [->|Hlt].
    + assert (String_as_OT.cmp k' k' = Eq) by now apply String_as_OT.cmp_eq.
      congruence.
    + apply String_as_OT.cmp_lt in Hlt. congruence.
Qed.

Lemma leb_trans (k1 k2 k3 : string) :
  String.leb k1 k2 = true → String.leb k2 k3 = true → String.leb k1 k3 = true.
Proof.
  rewrite !leb_spec. intros [->|H12] [->|H23]; auto.
  right. now apply String_as_OT.lt_trans with k2.
Qed.

Lemma leb_false (k k' : string) :
  String.leb k k' = false → String.leb k' k = true.
Proof. intros H. destruct (String.leb_total k k'); congruence. Qed.

Lemma insert_item_perm {A} (k : string) (x : A) (l : list (string * A)) :
  insert_item k x l ≡ₚ (k, x) :: l.
Proof.
  induction l as [|[k' x'] rest IH]; simpl; [done|].
  destruct (String.leb k k'); [done|].
  rewrite IH. apply Permutation_swap.
Qed.

Lemma sorted_items_perm {A} (l : list (string * A)) : sorted_items l ≡ₚ l.
Proof.
  induction l as [|[k x] rest IH]; simpl; [done|].
  now rewrite insert_item_perm, IH.
Qed.

Lemma insert_item_sorted {A} (k : string) (x : A) (l : list (string * A)) :
  StronglySorted key_le l → StronglySorted key_le (insert_item k x l).
Proof.
  induction 1 as [|[k' x'] rest Hrest IH Hall]; simpl.
  - repeat constructor.
  - destruct (String.leb k k') eqn:E.
    + constructor; [now constructor|]. constructor; [exact E|].
      eapply Forall_impl; [exact Hall|].
      intros [k'' x''] H. unfold key_le in *. simpl in *.
      now apply leb_trans with k'.
    + constructor; [exact IH|].
      rewrite insert_item_perm. constructor; [|exact Hall].
      unfold key_le. simpl. now apply leb_false.
Qed.

(** The model of [sorted] does sort: ascending keys. *)
Lemma sorted_items_sorted {A} (l : list (string * A)) :
  StronglySorted key_le (sorted_items l).
Proof.
  induction l as [|[k x] rest IH]; simpl; [constructor|].
  now apply insert_item_sorted.
Qed.

Lemma NoDup_keys_inj {A} (l : list (string * A)) (x y : string * A) :
  NoDup l.*1 → x ∈ l → y ∈ l → x.1 = y.1 → x = y.
Proof.
  induction l as [|z rest IH]; intros Hnd Hx Hy Hk; [by inv Hx|].
  rewrite fmap_cons in Hnd. apply NoDup_cons in Hnd as [Hz Hnd].
  inv Hx; inv Hy; try done.
  - exfalso. apply Hz. rewrite Hk. now apply list_elem_of_fmap_2.
  - exfalso. apply Hz. rewrite <- Hk. now apply list_elem_of_fmap_2.
  - now apply IH.
Qed.

(** With distinct keys the sorted items do not depend on the order the
    items came in. *)
Lemma sorted_items_unique {A} (l l' : list (string * A)) :
  NoDup l.*1 → l ≡ₚ l' → sorted_items l = sorted_items l'.
Proof.
  intros Hnd Hperm.
  apply (StronglySorted_unique_strong key_le);
    [|apply sorted_items_sorted..|].
  - intros x y Hx Hy Hxy Hyx.
    rewrite sorted_items_perm in Hx, Hy. rewrite <- Hperm in Hy.
    apply (NoDup_keys_inj l); [done..|].
    now apply String.leb_antisym.
  - now rewrite !sorted_items_perm.
Qed.

Lemma fmap_keys {A B} (f : A → B) (l : list (string * A)) :
  ((λ kx, (kx.1, f kx.2)) <$> l).*1 = l.*1.
Proof. induction l as [|[k x] rest IH]; [done|]. rewrite !fmap_cons. now f_equal. Qed.

(** X13. The order in which a mapping holds its entries does not show:
    two [dict]s (or two [FrozenDict]s) with the same entries, the keys
    being distinct, make [_encode_value] do exactly the same, the entries
    going out in ascending key order. *)
Theorem mapping_order_is_irrelevant
    (wr : handle) (items items' : list (string * value)) (s : state) :
  NoDup items.*1 →
  items ≡ₚ items' →
  _encode_value wr (Dict items) s = _encode_value wr (Dict items') s ∧
  _encode_value wr (FrozenDict items) s =
  _encode_value wr (FrozenDict items') s.
Proof.
  intros Hnd Hperm.
  assert (Hsorted :
    sorted_items ((λ kx, (kx.1, λ wr', _encode_value wr' kx.2)) <$> items) =
    sorted_items ((λ kx, (kx.1, λ wr', _encode_value wr' kx.2)) <$> items')).
  { apply sorted_items_unique; [|now rewrite Hperm].
    pose proof (fmap_keys (λ x wr', _encode_value wr' x) items) as Hkeys.
    cbv beta in Hkeys. now rewrite Hkeys. }
  cbn [_encode_value]. rewrite Hsorted.
  now rewrite (Permutation_length Hperm).
Qed.

Lemma mapping_order_is_irrelevant_witness :
  let items := [("b", Scalar (PyInt 2)); ("a", Tuple [Scalar (PyInt 1)])] in
  let items' := [("a", Tuple [Scalar (PyInt 1)]); ("b", Scalar (PyInt 2))] in
  _encode_value OnWriter (Dict items) empty_state =
  _encode_value OnWriter (Dict items') empty_state ∧
  _encode_value OnWriter (FrozenDict items) empty_state =
  _encode_value OnWriter (FrozenDict items') empty_state.
Proof.
  intros items items'.
  apply (mapping_order_is_irrelevant OnWriter items items' empty_state).
  - simpl. apply NoDup_cons. split; [|apply NoDup_singleton].
    intros H. apply list_elem_of_singleton in H. discriminate.
  - apply Permutation_swap.
Defined.
